(** * accessible-select-demo: the combobox widget and its debounce hook

    A shallow embedding of [src/components/Select.tsx] and of
    [src/hooks/useDebounce.ts], with the properties of the widget's
    state machine, of its filter, of its rendering contract and of the
    single-slot debounce timer. *)

From Stdlib Require Import ZArith Ascii String.
From stdpp Require Import base tactics option list strings.

Local Open Scope Z_scope.

(** ** JavaScript values used by the widget *)

Module JS.

(** The numbers the widget stores in [currentFocusedOption]: integers
    and [NaN].  The program only adds or subtracts list lengths and one,
    and takes remainders, so every other value of a JS number is out of
    reach.  Negative zero (produced by [-1 % 1]) is identified with zero:
    the program observes the index through [===], through array indexing
    and through further arithmetic only, and none of them tells the two
    zeros apart. *)
Inductive number : Type :=
| Num (z : Z)
| NaN.

Definition add (a b : number) : number :=
  match a, b with
  | Num x, Num y => Num (x + y)
  | _, _ => NaN
  end.

Definition sub (a b : number) : number :=
  match a, b with
  | Num x, Num y => Num (x - y)
  | _, _ => NaN
  end.

(** The [%] operator: the remainder has the sign of the dividend
    ([Z.rem]), and a zero divisor gives [NaN]. *)
Definition rem (a b : number) : number :=
  match a, b with
  | Num x, Num y => if Z.eqb y 0 then NaN else Num (Z.rem x y)
  | _, _ => NaN
  end.

(** Strict equality [===] on numbers: [NaN] equals nothing. *)
Definition strict_eq (a b : number) : bool :=
  match a, b with
  | Num x, Num y => Z.eqb x y
  | _, _ => false
  end.

(** [arr.length] as a number. *)
Definition length_of {A} (l : list A) : number := Num (Z.of_nat (length l)).

(** [arr[n]]: [undefined] for [NaN], for a negative index and past the
    end. *)
Definition index {A} (l : list A) (n : number) : option A :=
  match n with
  | Num z => if Z.ltb z 0 then None else l !! Z.to_nat z
  | NaN => None
  end.

(** [a ?? b]. *)
Definition nullish {A} (a : option A) (b : A) : A :=
  match a with
  | Some x => x
  | None => b
  end.

(** [Array.prototype.find]: the first element satisfying the callback. *)
Fixpoint find {A} (f : A -> bool) (l : list A) : option A :=
  match l with
  | [] => None
  | x :: rest => if f x then Some x else find f rest
  end.

(** [base.includes(search)]: [search] occurs in [base] at some
    position; the empty string occurs in every string.  Strings are
    sequences of characters; the search does not depend on the
    alphabet. *)
Fixpoint includes (base search : string) : bool :=
  String.prefix search base ||
  match base with
  | EmptyString => false
  | String _ rest => includes rest search
  end.

End JS.

(** ** The combobox widget ([src/components/Select.tsx]) *)

Module Select.

Record SelectOption : Type := mkOption {
  label : string;
  value : string;
}.

#[export] Instance SelectOption_eq_dec : EqDecision SelectOption.
Proof. solve_decision. Defined.

(** What [handleKeyDown] did to the keyboard event. *)
Record KeyEffects : Type := mkKeyEffects {
  defaultPrevented : bool;
  propagationStopped : bool;
}.

Definition specialKeys : list string :=
  ["ArrowUp"; "ArrowDown"; "Enter"; "Escape"]%string.

Definition isSpecialKey (key : string) : bool :=
  existsb (String.eqb key) specialKeys.

(** One row of the rendered [<ul role="listbox">]. *)
Inductive Row : Type :=
| LoadingPlaceholder
| OptionRow (option : SelectOption) (ariaSelected : bool)
| NoOptionsPlaceholder.

Section Widget.

(** The caller's value type, the truthiness of its values (read by
    [initialValue ? ... : ...]) and [String.prototype.toLowerCase]. *)
Variable T : Type.
Variable truthy : T -> bool.
Variable toLowerCase : string -> string.

(** The props that stay the same over the life of the widget.
    [onOptionSelected] records whether the callback was supplied; its
    calls are logged in the world below.  The props that only name or
    decorate the DOM ([selectId], [selectName], [placeholder],
    [renderOption]) are left out. *)
Record SelectProps : Type := mkProps {
  toOption : T -> SelectOption;
  initialValue : option T;
  onOptionSelected : bool;
}.

(** The widget together with the part of its caller it talks to.
    [inputValue] is the caller's text, written through [setInputValue]
    (a state setter in [App.tsx]); [values] and [isLoading] are the
    props the caller renders the widget with; the next four fields are
    the widget's [useState] cells; [selectedStamp] stands for the
    identity of the object held in [selectedOption] (it changes when a
    fresh option object is stored); [reported] logs arguments of the
    calls of [onOptionSelected], oldest first.

    The log holds one call for each change of the selected option and
    for each render with a new values array.  React compares the
    dependencies of the selection effect by identity, so the code makes
    further calls, each with the argument the effect computes on the
    world of that moment ([onOptionSelectedCall]): after every render
    while [values] is undefined (the default [[]] is a new array each
    time), and after every render of a caller that hands over a new
    [toOption] or [onOptionSelected] function each time, as [App.tsx]
    does.  These repeated calls are not in the log.  What is stated of
    the state, of the screen and of [onOptionSelectedCall] does not
    depend on them. *)
Record World : Type := mkWorld {
  inputValue : string;
  values : option (list T);
  isLoading : option bool;
  showOptions : bool;
  shouldUpdateInput : bool;
  currentFocusedOption : JS.number;
  selectedOption : option SelectOption;
  selectedStamp : nat;
  reported : list (option T);
}.

Definition setInputValue (v : string) (w : World) : World :=
  mkWorld v (values w) (isLoading w) (showOptions w) (shouldUpdateInput w)
    (currentFocusedOption w) (selectedOption w) (selectedStamp w) (reported w).

Definition setProps (vs : option (list T)) (l : option bool) (w : World) : World :=
  mkWorld (inputValue w) vs l (showOptions w) (shouldUpdateInput w)
    (currentFocusedOption w) (selectedOption w) (selectedStamp w) (reported w).

Definition setShowOptions (b : bool) (w : World) : World :=
  mkWorld (inputValue w) (values w) (isLoading w) b (shouldUpdateInput w)
    (currentFocusedOption w) (selectedOption w) (selectedStamp w) (reported w).

Definition setShouldUpdateInput (b : bool) (w : World) : World :=
  mkWorld (inputValue w) (values w) (isLoading w) (showOptions w) b
    (currentFocusedOption w) (selectedOption w) (selectedStamp w) (reported w).

Definition setCurrentFocusedOption (n : JS.number) (w : World) : World :=
  mkWorld (inputValue w) (values w) (isLoading w) (showOptions w) (shouldUpdateInput w)
    n (selectedOption w) (selectedStamp w) (reported w).

(** [setSelectedOption(option)] with an option object of the current
    render: a new object, hence a new stamp ([toOption] is taken to
    build a new object at each call, as the arrow function of [App.tsx]
    does). *)
Definition setSelectedOption (o : SelectOption) (w : World) : World :=
  mkWorld (inputValue w) (values w) (isLoading w) (showOptions w) (shouldUpdateInput w)
    (currentFocusedOption w) (Some o) (S (selectedStamp w)) (reported w).

Definition report (r : option T) (w : World) : World :=
  mkWorld (inputValue w) (values w) (isLoading w) (showOptions w) (shouldUpdateInput w)
    (currentFocusedOption w) (selectedOption w) (selectedStamp w) (reported w ++ [r]).

Variable p : SelectProps.

(** [values = []] in the parameter list: [undefined] becomes the empty
    array. *)
Definition valuesOrEmpty (w : World) : list T := default [] (values w).

(** [const options = values.map(toOption)]. *)
Definition options (w : World) : list SelectOption :=
  map (toOption p) (valuesOrEmpty w).

Definition includesSubstring (compared base : string) : bool :=
  JS.includes (toLowerCase base) (toLowerCase compared).

(** The [useMemo] body.  [!options] is false: [options] is an array. *)
Definition filteredOptions (w : World) : list SelectOption :=
  if Nat.eqb (String.length (inputValue w)) 0 then options w
  else
    List.filter
      (fun option =>
         let includesInputValue := includesSubstring (inputValue w) in
         includesInputValue (label option)
         || includesInputValue (JS.nullish (Some (value option)) ""%string))
      (options w).

Definition handleOptionClick (option : SelectOption) (w : World) : World :=
  setShouldUpdateInput true (setSelectedOption option w).

Definition handleFocus (w : World) : World :=
  setShowOptions true (setInputValue ""%string w).

Definition untouched : KeyEffects := mkKeyEffects false false.

(** [handleKeyDown].  [!options] is false.  The [switch] is written
    as a chain of comparisons; its [default] branch, which calls
    [checkExhaustive], is out of reach for a special key and leaves the
    world as it is. *)
Definition handleKeyDown (key : string) (w : World) : World * KeyEffects :=
  if negb (isSpecialKey key) then (w, untouched)
  else if negb (showOptions w) then
    if String.eqb key "Escape" then (w, untouched)
    else (setShowOptions true w, untouched)
  else if String.eqb key "Escape" then
    (setShouldUpdateInput true w, mkKeyEffects false true)
  else if String.eqb key "ArrowDown" then
    (setCurrentFocusedOption
       (JS.rem (JS.add (currentFocusedOption w) (JS.Num 1))
               (JS.length_of (filteredOptions w))) w,
     untouched)
  else if String.eqb key "ArrowUp" then
    (setCurrentFocusedOption
       (JS.rem (JS.add (JS.sub (currentFocusedOption w) (JS.Num 1))
                       (JS.length_of (filteredOptions w)))
               (JS.length_of (filteredOptions w))) w,
     untouched)
  else if String.eqb key "Enter" then
    if JS.strict_eq (currentFocusedOption w) (JS.Num (-1)) then (w, untouched)
    else
      (setShouldUpdateInput true
         match JS.index (filteredOptions w) (currentFocusedOption w) with
         | Some o => setSelectedOption o w
         | None => w
         end,
       mkKeyEffects true false)
  else (w, untouched).

(** The callback handed to [debounce] in [handleBlur]; [captured] is
    the [shouldUpdateInput] of the render that created it. *)
Definition handleBlurCallback (captured : bool) (w : World) : World :=
  if captured then w else setShouldUpdateInput true w.

Definition handleChange (text : string) (w : World) : World :=
  setInputValue text w.

Definition handleClickOutside (w : World) : World :=
  setShouldUpdateInput true (setShowOptions false w).

(** The first [useEffect]: the resync step. *)
Definition resyncEffect (w : World) : World :=
  if negb (shouldUpdateInput w) then w
  else
    setCurrentFocusedOption (JS.Num (-1))
      (setShowOptions false
         (setShouldUpdateInput false
            (setInputValue
               (JS.nullish (label <$> selectedOption w) ""%string) w))).

(** [toValue] of the third [useEffect]. *)
Definition toValue (w : World) (selected : SelectOption) : option T :=
  JS.find (fun v => String.eqb (value (toOption p v)) (value selected))
          (valuesOrEmpty w).

(** The third [useEffect]: [None] when the effect returns early,
    [Some r] when it calls [onOptionSelected r].  [!values] is false
    after the default. *)
Definition onOptionSelectedCall (w : World) : option (option T) :=
  if negb (onOptionSelected p) then None
  else match selectedOption w with
       | None => None
       | Some o => Some (toValue w o)
       end.

Definition onOptionSelectedEffect (w : World) : World :=
  match onOptionSelectedCall w with
  | Some r => report r w
  | None => w
  end.

(** The truthiness of the optional [isLoading]. *)
Definition truthyFlag (b : option bool) : bool := default false b.

(** The rows of the listbox, [None] while it is not rendered. *)
Definition renderList (w : World) : option (list Row) :=
  if negb (showOptions w) then None
  else
    Some
      ((if truthyFlag (isLoading w) then [LoadingPlaceholder] else [])
       ++ (if Z.ltb 0 (Z.of_nat (length (filteredOptions w))) then
             imap (fun index option =>
                     OptionRow option
                       (JS.strict_eq (JS.Num (Z.of_nat index))
                                     (currentFocusedOption w)))
                  (filteredOptions w)
           else [])
       ++ (if Nat.eqb (length (filteredOptions w)) 0
              && negb (truthyFlag (isLoading w))
           then [NoOptionsPlaceholder] else [])).

(** [useState(initialValue ? toOption(initialValue) : options[0])]. *)
Definition initialSelectedOption (w : World) : option SelectOption :=
  match initialValue p with
  | Some v => if truthy v then Some (toOption p v) else options w !! 0%nat
  | None => options w !! 0%nat
  end.

(** The first render, before any effect has run. *)
Definition firstRender (text : string) (vs : option (list T))
    (loading : option bool) : World :=
  let w := mkWorld text vs loading false true (JS.Num (-1)) None 0 [] in
  mkWorld text vs loading false true (JS.Num (-1)) (initialSelectedOption w) 0 [].

(** Mounting: the first render followed by its effects, in the order
    of the source.  The render that the resync step causes is the one
    after which the selection effect may run again (see [World]). *)
Definition mount (text : string) (vs : option (list T))
    (loading : option bool) : World :=
  onOptionSelectedEffect (resyncEffect (firstRender text vs loading)).

(** What can happen to a mounted widget.  [Focus] is a focus of the
    text box or a click on the toggle button (both run [handleFocus]);
    [OptionClick i] and [MouseEnter i] hit row [i] of the option rows;
    [BlurTimeout] is the firing of the debounced blur callback;
    [Rerender] is the caller rendering the widget with a values array
    and a loading flag. *)
Inductive Event : Type :=
| Focus
| Change (text : string)
| KeyDown (key : string)
| OptionClick (index : nat)
| MouseEnter (index : nat)
| ClickOutside
| BlurTimeout (captured : bool)
| Rerender (vs : option (list T)) (loading : option bool).

(** The option of row [index], when that row is on screen. *)
Definition renderedOption (index : nat) (w : World) : option SelectOption :=
  if showOptions w then filteredOptions w !! index else None.

Definition handle (e : Event) (w : World) : World :=
  match e with
  | Focus => handleFocus w
  | Change text => handleChange text w
  | KeyDown key => fst (handleKeyDown key w)
  | OptionClick index =>
      match renderedOption index w with
      | Some o => handleOptionClick o w
      | None => w
      end
  | MouseEnter index =>
      match renderedOption index w with
      | Some _ => setCurrentFocusedOption (JS.Num (Z.of_nat index)) w
      | None => w
      end
  | ClickOutside => handleClickOutside w
  | BlurTimeout captured => handleBlurCallback captured w
  | Rerender vs loading => setProps vs loading w
  end.

(** The dependency arrays.  The resync effect depends on
    [selectedOption?.label], on [shouldUpdateInput] and on the setter,
    which keeps its identity; the selection effect depends on the
    selected object, on the values array and on two props.  For the log
    the values array is taken to be new at each [Rerender] and the two
    props to keep their identity (see [World]). *)
Definition resyncDepsChanged (before after : World) : bool :=
  negb (bool_decide (label <$> selectedOption before = label <$> selectedOption after))
  || negb (Bool.eqb (shouldUpdateInput before) (shouldUpdateInput after)).

Definition selectionDepsChanged (e : Event) (before after : World) : bool :=
  negb (Nat.eqb (selectedStamp before) (selectedStamp after))
  || match e with Rerender _ _ => true | _ => false end.

(** One event: its handler, then the render it causes and the effects
    of that render whose dependencies changed.  The render that the
    resync effect causes in turn runs the resync effect once more,
    which returns at once because the flag is down. *)
Definition afterResync (e : Event) (w : World) : World :=
  let w1 := handle e w in
  if resyncDepsChanged w w1 then resyncEffect w1 else w1.

Definition step (e : Event) (w : World) : World :=
  let w2 := afterResync e w in
  if selectionDepsChanged e w (handle e w) then onOptionSelectedEffect w2 else w2.

Definition run (es : list Event) (w : World) : World :=
  fold_left (fun acc e => step e acc) es w.

End Widget.

End Select.

(** ** The debounce hook ([src/hooks/useDebounce.ts]) *)

Module Debounce.

(** What the browser makes of the delay handed to [setTimeout]: the
    argument is a signed 32-bit integer (a [long]), so a delay wraps
    around at [2^32], and one that comes out negative counts as zero.
    A delay below [2^31] is taken as it is. *)
Definition longDelay (delay : nat) : nat :=
  let m := N.modulo (N.of_nat delay) 4294967296 in
  if N.ltb m 2147483648 then N.to_nat m else 0%nat.

#[global] Arguments longDelay : simpl never.

Section Timers.

(** A deferred call [callback(args)]. *)
Variable Call : Type.

Record Timer : Type := mkTimer {
  timerId : nat;
  deadline : nat;
  call : Call;
}.

(** One instance of the hook and the host's timers set through it:
    the clock in milliseconds, the timers still pending, in the order
    they were set, the next timer id (ids are positive and never used
    twice), the hook's [debounceRef.current] and the calls made so far,
    oldest first, each with the id of its timer.  Every wrapper that
    [debounce(callback, delay)] returns shares the one
    [debounceRef]. *)
Record Runtime : Type := mkRuntime {
  now : nat;
  pending : list Timer;
  nextId : nat;
  debounceRef : option nat;
  fired : list (nat * Call);
}.

Definition initial : Runtime := mkRuntime 0 [] 1 None [].

(** [setTimeout(handler, delay)] in the browser, the host of the
    widget.  The timer is due [longDelay delay] milliseconds from now. *)
Definition setTimeout (c : Call) (delay : nat) (rt : Runtime) : nat * Runtime :=
  (nextId rt,
   mkRuntime (now rt) (pending rt ++ [mkTimer (nextId rt) (now rt + longDelay delay) c])
     (S (nextId rt)) (debounceRef rt) (fired rt)).

Definition clearTimeout (id : nat) (rt : Runtime) : Runtime :=
  mkRuntime (now rt)
    (List.filter (fun t => negb (Nat.eqb (timerId t) id)) (pending rt))
    (nextId rt) (debounceRef rt) (fired rt).

Definition setRef (id : nat) (rt : Runtime) : Runtime :=
  mkRuntime (now rt) (pending rt) (nextId rt) (Some id) (fired rt).

(** The function returned by [debounce(callback, delay)], applied to
    its argument.  [if (debounceRef.current)] is false for [null] and
    for the number zero. *)
Definition debounce (c : Call) (delay : nat) (rt : Runtime) : Runtime :=
  let rt1 :=
    match debounceRef rt with
    | Some id => if Nat.eqb id 0 then rt else clearTimeout id rt
    | None => rt
    end in
  let '(timeout, rt2) := setTimeout c delay rt1 in
  setRef timeout rt2.

Definition isDue (clock : nat) (t : Timer) : bool := Nat.leb (deadline t) clock.

(** The host runs every timer whose deadline has come. *)
Definition fireDue (rt : Runtime) : Runtime :=
  mkRuntime (now rt)
    (List.filter (fun t => negb (isDue (now rt) t)) (pending rt))
    (nextId rt) (debounceRef rt)
    (fired rt ++ map (fun t => (timerId t, call t))
                     (List.filter (isDue (now rt)) (pending rt))).

Definition tick (rt : Runtime) : Runtime :=
  mkRuntime (S (now rt)) (pending rt) (nextId rt) (debounceRef rt) (fired rt).

(** [dt] milliseconds pass with no invocation: the due timers run at
    each millisecond, the current one included. *)
Fixpoint elapse (dt : nat) (rt : Runtime) : Runtime :=
  match dt with
  | O => fireDue rt
  | S n => elapse n (tick (fireDue rt))
  end.

Inductive Event : Type :=
| Invoke (c : Call) (delay : nat)
| Elapse (dt : nat).

Definition step (e : Event) (rt : Runtime) : Runtime :=
  match e with
  | Invoke c delay => debounce c delay rt
  | Elapse dt => elapse dt rt
  end.

Definition run (es : list Event) (rt : Runtime) : Runtime :=
  fold_left (fun acc e => step e acc) es rt.

Definition firedIds (rt : Runtime) : list nat := map fst (fired rt).

End Timers.

End Debounce.

(** ** The demo application ([src/App.tsx]) *)

Module App.

Record Word : Type := mkWord { word : string }.

(** [toOption={({ word }) => ({ label: word, value: word })}]. *)
Definition toOption (w : Word) : Select.SelectOption :=
  Select.mkOption (word w) (word w).

(** A [Word] is an object, hence truthy. *)
Definition truthy (w : Word) : bool := true.

(** [toLowerCase] on the ASCII letters. *)
Definition lowerAscii (c : ascii) : ascii :=
  let n := nat_of_ascii c in
  if Nat.leb 65 n && Nat.leb n 90 then ascii_of_nat (n + 32) else c.

Fixpoint toLowerCase (s : string) : string :=
  match s with
  | EmptyString => EmptyString
  | String c rest => String (lowerAscii c) (toLowerCase rest)
  end.

(** The props [App] passes: no [initialValue], [setSelectedValue] as
    the callback. *)
Definition props : Select.SelectProps Word :=
  Select.mkProps Word toOption None true.

Definition World : Type := Select.World Word.

Definition mount : string -> option (list Word) -> option bool -> World :=
  Select.mount Word truthy props.

Definition step : Select.Event Word -> World -> World :=
  Select.step Word toLowerCase props.

Definition run : list (Select.Event Word) -> World -> World :=
  Select.run Word toLowerCase props.

Definition filteredOptions : World -> list Select.SelectOption :=
  Select.filteredOptions Word toLowerCase props.

Definition renderList : World -> option (list Select.Row) :=
  Select.renderList Word toLowerCase props.

(** Two suggestions and the widget mounted on them, with the query
    empty and nothing being fetched. *)
Definition cat : Word := mkWord "cat".
Definition dog : Word := mkWord "dog".

Definition mounted : World := mount "" (Some [cat; dog]) None.

(** The dropdown just opened. *)
Definition opened : World := run [Select.Focus Word] mounted.

(** Opened, with a text that no suggestion contains. *)
Definition noMatch : World :=
  run [Select.Focus Word; Select.Change Word "x"] mounted.

(** Opened, the mouse moved onto the second row, then a text typed that
    only the first suggestion contains. *)
Definition staleFocus : World :=
  run [Select.Focus Word; Select.MouseEnter Word 1; Select.Change Word "Ca"] mounted.

(** Opened while a fetch is in flight and the previous suggestions are
    kept. *)
Definition refetching : World :=
  run [Select.Focus Word] (mount "" (Some [cat]) (Some true)).

(** Opened, with arrow-down pressed once. *)
Definition firstFocused : World :=
  run [Select.Focus Word; Select.KeyDown Word "ArrowDown"] mounted.

End App.

(** ** The text box, its blur handler and the debounce hook together *)

Module Page.

Section Page.

Variable T : Type.
Variable toLowerCase : string -> string.
Variable p : Select.SelectProps T.

(** The widget and the timers of its [useDebounce] instance.  A deferred
    call is the callback of [handleBlur]; it is told apart by the
    [shouldUpdateInput] it captured. *)
Record Page : Type := mkPage {
  world : Select.World T;
  timers : Debounce.Runtime bool;
}.

(** [Widget e] is an event of the widget that sets no timer; [Blur] is
    the text box losing focus ([onBlur={() => handleBlur()}]); [Wait dt]
    lets [dt] milliseconds pass. *)
Inductive Event : Type :=
| Widget (e : Select.Event T)
| Blur
| Wait (dt : nat).

(** [handleBlur = debounce(() => {...}, 150)], called. *)
Definition handleBlur (pg : Page) : Page :=
  mkPage (world pg)
    (Debounce.debounce bool (Select.shouldUpdateInput T (world pg)) 150 (timers pg)).

(** The deferred calls run, oldest first, each as an event of the
    widget. *)
Definition deliver (calls : list (nat * bool)) (w : Select.World T) : Select.World T :=
  fold_left
    (fun acc c => Select.step T toLowerCase p (Select.BlurTimeout T (snd c)) acc)
    calls w.

Definition wait (dt : nat) (pg : Page) : Page :=
  let rt := Debounce.elapse bool dt (timers pg) in
  mkPage
    (deliver (drop (length (Debounce.fired bool (timers pg))) (Debounce.fired bool rt))
       (world pg))
    rt.

Definition step (e : Event) (pg : Page) : Page :=
  match e with
  | Widget e => mkPage (Select.step T toLowerCase p e (world pg)) (timers pg)
  | Blur => handleBlur pg
  | Wait dt => wait dt pg
  end.

Definition run (es : list Event) (pg : Page) : Page :=
  fold_left (fun acc e => step e acc) es pg.

End Page.

End Page.

(** ** The result line of the demo application *)

Module Result.

(** [const [selectedValue, setSelectedValue] = useState<Word>()], with
    [setSelectedValue] as the selection callback: the argument of the
    last call, [undefined] before the first. *)
Definition selectedValue (w : App.World) : option App.Word :=
  mjoin (last (Select.reported App.Word w)).

(** [selected option: {selectedValue?.word ?? 'none'}]. *)
Definition resultText (w : App.World) : string :=
  "selected option: " +:+ default "none"%string (App.word <$> selectedValue w).

(** The page of the demo application, freshly mounted on two
    suggestions. *)
Definition page : Page.Page App.Word :=
  Page.mkPage App.Word App.mounted (Debounce.initial bool).

Definition runPage : list (Page.Event App.Word) -> Page.Page App.Word -> Page.Page App.Word :=
  Page.run App.Word App.toLowerCase App.props.

End Result.

(** ** Predicates used by the statements *)

Module Spec.

(** [needle] occurs in [hay]. *)
Definition Substring (needle hay : string) : Prop :=
  exists pre post, hay = pre +:+ needle +:+ post.

Section Widget.

Variable T : Type.
Variable toLowerCase : string -> string.

(** [text] is a case-insensitive substring of [s]: both are folded
    to lower case first. *)
Definition CaseInsensitiveSubstring (text s : string) : Prop :=
  Substring (toLowerCase text) (toLowerCase s).

Definition Matches (text : string) (o : Select.SelectOption) : Prop :=
  CaseInsensitiveSubstring text (Select.label o)
  \/ CaseInsensitiveSubstring text (Select.value o).

(** Between two events no resync is pending, and a closed dropdown
    has no focused row. *)
Definition Idle (w : Select.World T) : Prop :=
  Select.shouldUpdateInput T w = false
  /\ (Select.showOptions T w = false ->
      Select.currentFocusedOption T w = JS.Num (-1)).

(** The test of the [filter] callback. *)
Definition keeps (text : string) (o : Select.SelectOption) : bool :=
  Select.includesSubstring toLowerCase text (Select.label o)
  || Select.includesSubstring toLowerCase text (Select.value o).

Variable p : Select.SelectProps T.

(** The focused index lies in [[-1, filteredOptions.length - 1]]. *)
Definition FocusWithinBounds (w : Select.World T) : Prop :=
  exists i,
    Select.currentFocusedOption T w = JS.Num i
    /\ -1 <= i <= Z.of_nat (length (Select.filteredOptions T toLowerCase p w)) - 1.

(** Enter with a focused index of at least zero commits the option at
    that index: it is there, becomes the selected option, its label
    becomes the text, and the dropdown closes. *)
Definition EnterCommitsFocused (w : Select.World T) : Prop :=
  forall i,
    Select.currentFocusedOption T w = JS.Num i ->
    0 <= i ->
    exists o,
      Select.filteredOptions T toLowerCase p w !! Z.to_nat i = Some o
      /\ Select.selectedOption T
           (Select.step T toLowerCase p (Select.KeyDown T "Enter") w) = Some o
      /\ Select.inputValue T
           (Select.step T toLowerCase p (Select.KeyDown T "Enter") w) = Select.label o
      /\ Select.showOptions T
           (Select.step T toLowerCase p (Select.KeyDown T "Enter") w) = false.

(** What is on screen and in the widget's state, without the log of
    the callback and the stamp of the selected object. *)
Definition visible (w : Select.World T) :
    string * option (list T) * option bool * bool * bool * JS.number
    * option Select.SelectOption :=
  (Select.inputValue T w, Select.values T w, Select.isLoading T w,
   Select.showOptions T w, Select.shouldUpdateInput T w,
   Select.currentFocusedOption T w, Select.selectedOption T w).

(** The listbox shows no option row. *)
Definition NoOptionRows (w : Select.World T) : Prop :=
  forall rows o b,
    Select.renderList T toLowerCase p w = Some rows ->
    Select.OptionRow o b ∉ rows.

(** The option rows of the listbox: one for each filtered option. *)
Definition optionRows (w : Select.World T) : list Select.Row :=
  imap (fun index o =>
          Select.OptionRow o
            (JS.strict_eq (JS.Num (Z.of_nat index)) (Select.currentFocusedOption T w)))
       (Select.filteredOptions T toLowerCase p w).

(** Reading an undefined values list as the empty list. *)
Definition undefinedAsEmpty (w : Select.World T) : Select.World T :=
  Select.setProps T (Some (Select.valuesOrEmpty T w)) (Select.isLoading T w) w.

Definition eventAsEmpty (e : Select.Event T) : Select.Event T :=
  match e with
  | Select.Rerender _ vs loading => Select.Rerender T (Some (default [] vs)) loading
  | _ => e
  end.

(** The rows that are marked [aria-selected]. *)
Definition ariaSelectedRows (rows : list Select.Row) : list Select.Row :=
  List.filter
    (fun r => match r with Select.OptionRow _ true => true | _ => false end)
    rows.

(** What the resync step makes of a world. *)
Definition resynced (w : Select.World T) : Select.World T :=
  Select.resyncEffect T (Select.setShouldUpdateInput T true w).

End Widget.

Section Timers.

Variable Call : Type.

(** What holds of the timers between any two events: ids are positive
    and below the next id, and the only timer that can be pending is
    the one [debounceRef] names. *)
Definition SingleSlot (rt : Debounce.Runtime Call) : Prop :=
  (0 < Debounce.nextId Call rt)%nat
  /\ (forall i, Debounce.debounceRef Call rt = Some i ->
                (0 < i < Debounce.nextId Call rt)%nat)
  /\ (Debounce.pending Call rt = []
      \/ exists t, Debounce.pending Call rt = [t]
                   /\ Debounce.debounceRef Call rt = Some (Debounce.timerId Call t))
  /\ (forall i, i ∈ Debounce.firedIds Call rt -> (i < Debounce.nextId Call rt)%nat).

(** How many times the hook was invoked. *)
Definition invocations (es : list (Debounce.Event Call)) : nat :=
  length (List.filter
            (fun e => match e with Debounce.Invoke _ _ _ => true | _ => false end) es).

(** The timer [id] is neither pending nor fired, and its id is used
    up. *)
Definition Cancelled (id : nat) (rt : Debounce.Runtime Call) : Prop :=
  (id ∉ map (Debounce.timerId Call) (Debounce.pending Call rt))
  /\ (id ∉ Debounce.firedIds Call rt)
  /\ (id < Debounce.nextId Call rt)%nat.

End Timers.

End Spec.

(** ** Facts about the JavaScript primitives *)

Section JSFacts.

Lemma prefix_true_iff (p s : string) :
  String.prefix p s = true <-> exists post, s = p +:+ post.
Proof.
  revert s; induction p as [|c p IH]; intros s.
  - split; [intros _; exists s; reflexivity | intros _; by destruct s].
  - destruct s as [|d s]; simpl.
    + split; [discriminate | intros [post H]; discriminate].
    + destruct (ascii_dec c d) as [->|Hne].
      * rewrite IH. split; intros [post H]; exists post.
        -- simpl. by rewrite H.
        -- simpl in H. by inversion H.
      * split; [discriminate|].
        intros [post H]. simpl in H. inversion H. congruence.
Qed.

(** [includes] decides occurrence. *)
Lemma includes_true_iff (base search : string) :
  JS.includes base search = true <-> Spec.Substring search base.
Proof.
  unfold Spec.Substring.
  induction base as [|c base IH]; cbn [JS.includes].
  - rewrite orb_false_r, prefix_true_iff. split.
    + intros [post H]. exists ""%string, post. exact H.
    + intros (pre & post & H). destruct pre; [|discriminate].
      exists post. exact H.
  - rewrite orb_true_iff, prefix_true_iff, IH. split.
    + intros [[post H] | (pre & post & H)].
      * exists ""%string, post. exact H.
      * exists (String c pre), post. simpl. by rewrite H.
    + intros (pre & post & H). destruct pre as [|d pre].
      * left. exists post. exact H.
      * right. simpl in H. inversion H. by exists pre, post.
Qed.

(** [find] returns the first element the callback accepts. *)
Lemma find_Some_iff {A} (f : A -> bool) (l : list A) (x : A) :
  JS.find f l = Some x <->
  exists pre post,
    l = pre ++ x :: post /\ f x = true /\ forall y, y ∈ pre -> f y = false.
Proof.
  induction l as [|a l IH]; simpl.
  - split; [discriminate|]. intros (pre & post & H & _). by destruct pre.
  - destruct (f a) eqn:Ha.
    + split.
      * intros [= ->]. exists [], l. split_and!; [done..|]. intros y Hy. inversion Hy.
      * intros (pre & post & H & Hx & Hpre). destruct pre as [|b pre].
        -- simpl in H. by inversion H.
        -- simpl in H. inversion H; subst b.
           rewrite (Hpre a) in Ha; [discriminate | left].
    + rewrite IH. split.
      * intros (pre & post & -> & Hx & Hpre). exists (a :: pre), post.
        split_and!; [done..|]. intros y Hy. inversion Hy; subst; auto.
      * intros (pre & post & H & Hx & Hpre). destruct pre as [|b pre].
        -- simpl in H. inversion H; subst. congruence.
        -- simpl in H. inversion H; subst. exists pre, post.
           split_and!; [done..|]. intros y Hy. apply Hpre. by right.
Qed.

Lemma find_None_iff {A} (f : A -> bool) (l : list A) :
  JS.find f l = None <-> forall y, y ∈ l -> f y = false.
Proof.
  induction l as [|a l IH]; simpl.
  - split; [|done]. intros _ y Hy. inversion Hy.
  - destruct (f a) eqn:Ha.
    + split; [discriminate|]. intros H. rewrite (H a) in Ha; [discriminate | left].
    + rewrite IH. split.
      * intros H y Hy. inversion Hy; subst; auto.
      * intros H y Hy. apply H. by right.
Qed.

End JSFacts.

(** ** The filter *)

Section FilterFacts.

Variable T : Type.
Variable toLowerCase : string -> string.
Variable p : Select.SelectProps T.

Local Abbreviation World := (Select.World T).
Local Abbreviation options := (Select.options T p).
Local Abbreviation filteredOptions := (Select.filteredOptions T toLowerCase p).
Local Abbreviation Matches := (Spec.Matches toLowerCase).
Local Abbreviation keeps := (Spec.keeps toLowerCase).

Lemma keeps_true_iff (text : string) (o : Select.SelectOption) :
  keeps text o = true <-> Matches text o.
Proof.
  unfold Spec.keeps, Spec.Matches, Spec.CaseInsensitiveSubstring, Select.includesSubstring.
  by rewrite orb_true_iff, !includes_true_iff.
Qed.

Lemma length_zero_iff (s : string) : Nat.eqb (String.length s) 0 = true <-> s = ""%string.
Proof. destruct s; simpl; split; (done || discriminate). Qed.

Lemma filteredOptions_empty_text (w : World) :
  Select.inputValue T w = ""%string -> filteredOptions w = options w.
Proof. intros H. unfold Select.filteredOptions. by rewrite H. Qed.

Lemma filteredOptions_text (w : World) :
  Select.inputValue T w <> ""%string ->
  filteredOptions w = List.filter (keeps (Select.inputValue T w)) (options w).
Proof.
  intros H. unfold Select.filteredOptions.
  destruct (Nat.eqb _ 0) eqn:E; [by apply length_zero_iff in E|reflexivity].
Qed.

Lemma filter_sublist_of {A} (f : A -> bool) (l : list A) :
  List.filter f l `sublist_of` l.
Proof.
  induction l as [|a l IH]; simpl; [constructor|].
  destruct (f a); by constructor.
Qed.

Lemma filteredOptions_sublist (w : World) : filteredOptions w `sublist_of` options w.
Proof.
  unfold Select.filteredOptions. destruct (Nat.eqb _ 0); [done|].
  apply filter_sublist_of.
Qed.

(** The filtered list depends on the text and on the values only. *)
Lemma filteredOptions_ext (w1 w2 : World) :
  Select.inputValue T w1 = Select.inputValue T w2 ->
  Select.values T w1 = Select.values T w2 ->
  filteredOptions w1 = filteredOptions w2.
Proof.
  intros Hi Hv. unfold Select.filteredOptions, Select.options, Select.valuesOrEmpty.
  by rewrite Hi, Hv.
Qed.

(** C3. With an empty text the filtered list is the whole mapped list,
    in its order.  With a non-empty text it is the mapped list with
    exactly the options dropped that do not have the text as a
    case-insensitive substring of their label or of their value: the
    options kept are those that match, and they stay in the order (and
    multiplicity) of the mapped list. *)
Theorem filteredOptions_correct (w : World) :
  (Select.inputValue T w = ""%string ->
   filteredOptions w = map (Select.toOption T p) (default [] (Select.values T w)))
  /\ (Select.inputValue T w <> ""%string ->
      (exists keep : Select.SelectOption -> bool,
          (forall o, keep o = true <-> Matches (Select.inputValue T w) o)
          /\ filteredOptions w
             = List.filter keep (map (Select.toOption T p) (default [] (Select.values T w))))
      /\ (forall o,
            o ∈ filteredOptions w <->
            o ∈ map (Select.toOption T p) (default [] (Select.values T w))
            /\ Matches (Select.inputValue T w) o)
      /\ filteredOptions w
         `sublist_of` map (Select.toOption T p) (default [] (Select.values T w))).
Proof.
  split.
  - apply filteredOptions_empty_text.
  - intros H. split_and!.
    + exists (keeps (Select.inputValue T w)). split.
      * apply keeps_true_iff.
      * by apply filteredOptions_text.
    + intros o. rewrite filteredOptions_text by done.
      rewrite !list_elem_of_In, filter_In, keeps_true_iff. reflexivity.
    + apply filteredOptions_sublist.
Qed.

End FilterFacts.

Lemma filteredOptions_correct_witness :
  Select.inputValue App.Word App.staleFocus <> ""%string
  /\ (App.toOption App.cat ∈ App.filteredOptions App.staleFocus <->
      App.toOption App.cat ∈ map App.toOption [App.cat; App.dog]
      /\ Spec.Matches App.toLowerCase "Ca" (App.toOption App.cat)).
Proof.
  split; [discriminate|].
  destruct (filteredOptions_correct App.Word App.toLowerCase App.props App.staleFocus)
    as [_ H].
  destruct H as (_ & H & _); [discriminate|].
  apply (H (App.toOption App.cat)).
Defined.

(** ** The state machine of the widget *)

Section MachineFacts.

Variable T : Type.
Variable truthy : T -> bool.
Variable toLowerCase : string -> string.
Variable p : Select.SelectProps T.

Local Abbreviation World := (Select.World T).
Local Abbreviation Event := (Select.Event T).
Local Abbreviation filteredOptions := (Select.filteredOptions T toLowerCase p).
Local Abbreviation handleKeyDown := (Select.handleKeyDown T toLowerCase p).
Local Abbreviation handle := (Select.handle T toLowerCase p).
Local Abbreviation step := (Select.step T toLowerCase p).
Local Abbreviation afterResync := (Select.afterResync T toLowerCase p).
Local Abbreviation run := (Select.run T toLowerCase p).
Local Abbreviation mount := (Select.mount T truthy p).
Local Abbreviation resyncEffect := (Select.resyncEffect T).
Local Abbreviation onOptionSelectedEffect := (Select.onOptionSelectedEffect T p).
Local Abbreviation inputValue := (Select.inputValue T).
Local Abbreviation values := (Select.values T).
Local Abbreviation showOptions := (Select.showOptions T).
Local Abbreviation shouldUpdateInput := (Select.shouldUpdateInput T).
Local Abbreviation currentFocusedOption := (Select.currentFocusedOption T).
Local Abbreviation selectedOption := (Select.selectedOption T).
Local Abbreviation selectedStamp := (Select.selectedStamp T).
Local Abbreviation reported := (Select.reported T).
Local Abbreviation Idle := (Spec.Idle T).

(** The selection effect writes the log and nothing else. *)
Lemma onOptionSelectedEffect_frame (w : World) :
  inputValue (onOptionSelectedEffect w) = inputValue w
  /\ values (onOptionSelectedEffect w) = values w
  /\ Select.isLoading T (onOptionSelectedEffect w) = Select.isLoading T w
  /\ showOptions (onOptionSelectedEffect w) = showOptions w
  /\ shouldUpdateInput (onOptionSelectedEffect w) = shouldUpdateInput w
  /\ currentFocusedOption (onOptionSelectedEffect w) = currentFocusedOption w
  /\ selectedOption (onOptionSelectedEffect w) = selectedOption w
  /\ selectedStamp (onOptionSelectedEffect w) = selectedStamp w.
Proof.
  unfold Select.onOptionSelectedEffect.
  destruct (Select.onOptionSelectedCall T p w); simpl; done.
Qed.

(** The resync step, when the flag is up. *)
Lemma resyncEffect_pending (w : World) :
  shouldUpdateInput w = true ->
  resyncEffect w
  = Select.mkWorld T (JS.nullish (Select.label <$> selectedOption w) ""%string)
      (values w) (Select.isLoading T w) false false (JS.Num (-1))
      (selectedOption w) (selectedStamp w) (reported w).
Proof. intros H. unfold Select.resyncEffect. rewrite H. reflexivity. Qed.

Lemma resyncEffect_idle (w : World) :
  shouldUpdateInput w = false -> resyncEffect w = w.
Proof. intros H. unfold Select.resyncEffect. by rewrite H. Qed.

Lemma resyncDepsChanged_same (w w1 : World) :
  selectedOption w1 = selectedOption w ->
  shouldUpdateInput w1 = shouldUpdateInput w ->
  Select.resyncDepsChanged T w w1 = false.
Proof.
  intros Hs Hf. unfold Select.resyncDepsChanged. rewrite Hs, Hf.
  rewrite bool_decide_eq_true_2 by done. by rewrite Bool.eqb_reflx.
Qed.

Lemma resyncDepsChanged_raised (w w1 : World) :
  shouldUpdateInput w = false ->
  shouldUpdateInput w1 = true ->
  Select.resyncDepsChanged T w w1 = true.
Proof.
  intros H0 H1. unfold Select.resyncDepsChanged. rewrite H0, H1.
  simpl. apply orb_true_r.
Qed.

(** An event that leaves the selection and the flag alone runs no
    effect. *)
Lemma step_quiet (e : Event) (w : World) :
  selectedOption (handle e w) = selectedOption w ->
  selectedStamp (handle e w) = selectedStamp w ->
  shouldUpdateInput (handle e w) = shouldUpdateInput w ->
  (forall vs loading, e <> Select.Rerender T vs loading) ->
  step e w = handle e w.
Proof.
  intros Hs Hn Hf He. unfold Select.step, Select.afterResync.
  rewrite resyncDepsChanged_same by done.
  unfold Select.selectionDepsChanged. rewrite Hn, Nat.eqb_refl. simpl.
  destruct e; try reflexivity. by destruct (He vs loading).
Qed.

(** An event that raises the flag of an idle widget is followed by the
    resync step. *)
Lemma step_resync (e : Event) (w : World) :
  shouldUpdateInput w = false ->
  shouldUpdateInput (handle e w) = true ->
  let w' := step e w in
  inputValue w' = JS.nullish (Select.label <$> selectedOption (handle e w)) ""%string
  /\ values w' = values (handle e w)
  /\ showOptions w' = false
  /\ shouldUpdateInput w' = false
  /\ currentFocusedOption w' = JS.Num (-1)
  /\ selectedOption w' = selectedOption (handle e w)
  /\ selectedStamp w' = selectedStamp (handle e w).
Proof.
  intros H0 H1. unfold Select.step, Select.afterResync.
  rewrite resyncDepsChanged_raised by done.
  rewrite (resyncEffect_pending _ H1).
  destruct (Select.selectionDepsChanged T e w (handle e w)); simpl.
  - pose proof (onOptionSelectedEffect_frame
      (Select.mkWorld T (JS.nullish (Select.label <$> selectedOption (handle e w)) ""%string)
         (values (handle e w)) (Select.isLoading T (handle e w)) false false (JS.Num (-1))
         (selectedOption (handle e w)) (selectedStamp (handle e w))
         (reported (handle e w)))) as F.
    simpl in F. destruct F as (-> & -> & _ & -> & -> & -> & -> & ->). done.
  - done.
Qed.

(** The arrow keys on an open dropdown: what [handleKeyDown] stores. *)
Lemma handle_ArrowDown (w : World) :
  showOptions w = true ->
  handle (Select.KeyDown T "ArrowDown") w
  = Select.setCurrentFocusedOption T
      (JS.rem (JS.add (currentFocusedOption w) (JS.Num 1))
              (JS.length_of (filteredOptions w))) w.
Proof. intros H. simpl. unfold Select.handleKeyDown. rewrite H. reflexivity. Qed.

Lemma handle_ArrowUp (w : World) :
  showOptions w = true ->
  handle (Select.KeyDown T "ArrowUp") w
  = Select.setCurrentFocusedOption T
      (JS.rem (JS.add (JS.sub (currentFocusedOption w) (JS.Num 1))
                      (JS.length_of (filteredOptions w)))
              (JS.length_of (filteredOptions w))) w.
Proof. intros H. simpl. unfold Select.handleKeyDown. rewrite H. reflexivity. Qed.

Lemma step_arrow (key : string) (w : World) :
  key = "ArrowDown"%string \/ key = "ArrowUp"%string ->
  step (Select.KeyDown T key) w = handle (Select.KeyDown T key) w.
Proof.
  intros Hk. apply step_quiet; try discriminate;
    simpl; unfold Select.handleKeyDown;
    destruct Hk as [-> | ->]; simpl; by destruct (showOptions w).
Qed.

(** On a non-empty list the arrow keys wrap around: from an index [i]
    of at least -1, arrow-down stores [(i+1) mod n] and arrow-up stores
    [(i-1+n) mod n]. *)
Lemma arrow_keys_wrap (w : World) (i : Z) :
  showOptions w = true ->
  filteredOptions w <> [] ->
  currentFocusedOption w = JS.Num i ->
  -1 <= i ->
  let n := Z.of_nat (length (filteredOptions w)) in
  currentFocusedOption (step (Select.KeyDown T "ArrowDown") w) = JS.Num ((i + 1) mod n)
  /\ currentFocusedOption (step (Select.KeyDown T "ArrowUp") w) = JS.Num ((i - 1 + n) mod n).
Proof.
  intros Ho Hne Hi Hlo n.
  assert (0 < n) as Hn.
  { subst n. destruct (filteredOptions w); [done | simpl; lia]. }
  rewrite !step_arrow by auto.
  rewrite handle_ArrowDown, handle_ArrowUp by done.
  simpl. rewrite Hi. simpl. fold n.
  destruct (Z.eqb_spec n 0) as [E|_]; [lia|].
  split; f_equal.
  - apply Z.rem_mod_nonneg; lia.
  - destruct (Z.eq_dec (i - 1 + n) (-1)) as [E|E].
    + assert (n = 1) as -> by lia. rewrite E. reflexivity.
    + apply Z.rem_mod_nonneg; lia.
Qed.

(** C1 (the code at the failing input). On an open dropdown whose
    filtered list is empty, arrow-down and arrow-up take the remainder by
    zero and store [NaN] in the focused index, whatever it was. *)
Theorem arrow_key_on_empty_list (w : World) (key : string) :
  showOptions w = true ->
  filteredOptions w = [] ->
  key = "ArrowDown"%string \/ key = "ArrowUp"%string ->
  currentFocusedOption (step (Select.KeyDown T key) w) = JS.NaN.
Proof.
  intros Ho He Hk. rewrite step_arrow by done.
  destruct Hk as [-> | ->]; [rewrite handle_ArrowDown | rewrite handle_ArrowUp]; try done;
    simpl; rewrite He; simpl;
    by destruct (currentFocusedOption w).
Qed.

(** *** The idle invariant *)

Lemma step_without_resync (e : Event) (w : World) :
  selectedOption (handle e w) = selectedOption w ->
  shouldUpdateInput (handle e w) = shouldUpdateInput w ->
  step e w = handle e w \/ step e w = onOptionSelectedEffect (handle e w).
Proof.
  intros Hs Hf. unfold Select.step, Select.afterResync.
  rewrite resyncDepsChanged_same by done.
  destruct (Select.selectionDepsChanged T e w (handle e w)); auto.
Qed.

(** Every handler either raises the flag or leaves the selection alone;
    in the second case it does not close the dropdown. *)
Lemma handle_cases (e : Event) (w : World) :
  shouldUpdateInput w = false ->
  shouldUpdateInput (handle e w) = true
  \/ (shouldUpdateInput (handle e w) = false
      /\ selectedOption (handle e w) = selectedOption w
      /\ selectedStamp (handle e w) = selectedStamp w
      /\ (showOptions (handle e w) = false ->
          showOptions w = false
          /\ currentFocusedOption (handle e w) = currentFocusedOption w)).
Proof.
  intros Hf. destruct e as [|text|key|index|index| |captured|vs loading]; simpl.
  - right. by rewrite Hf.
  - right. by rewrite Hf.
  - unfold Select.handleKeyDown.
    destruct (Select.isSpecialKey key); simpl; [|by right].
    destruct (showOptions w) eqn:Ho; simpl.
    + destruct (String.eqb key "Escape"); simpl; [by left|].
      destruct (String.eqb key "ArrowDown"); simpl; [right; by rewrite Ho|].
      destruct (String.eqb key "ArrowUp"); simpl; [right; by rewrite Ho|].
      destruct (String.eqb key "Enter"); simpl; [|right; by rewrite Ho].
      destruct (JS.strict_eq _ _); simpl; [right; by rewrite Ho | by left].
    + destruct (String.eqb key "Escape"); simpl; right; by rewrite ?Ho.
  - destruct (Select.renderedOption T toLowerCase p index w); simpl; [by left | by right].
  - unfold Select.renderedOption.
    destruct (showOptions w) eqn:Ho; [|by right].
    destruct (filteredOptions w !! index); simpl; right; by rewrite ?Ho.
  - by left.
  - destruct captured; simpl; [by right | by left].
  - right. by rewrite Hf.
Qed.

Lemma mount_idle (text : string) (vs : option (list T)) (loading : option bool) :
  Idle (mount text vs loading).
Proof.
  unfold Spec.Idle, Select.mount.
  destruct (onOptionSelectedEffect_frame
              (resyncEffect (Select.firstRender T truthy p text vs loading)))
    as (_ & _ & _ & -> & -> & -> & _).
  by rewrite resyncEffect_pending.
Qed.

Lemma step_idle (e : Event) (w : World) : Idle w -> Idle (step e w).
Proof.
  intros [Hf Hc]. destruct (handle_cases e w Hf) as [Hup | (Hdown & Hs & Hn & Hclosed)].
  - destruct (step_resync e w Hf Hup) as (_ & _ & Ho & Hf' & Hi & _). by split.
  - assert (shouldUpdateInput (handle e w) = shouldUpdateInput w) as Hsame by congruence.
    destruct (onOptionSelectedEffect_frame (handle e w))
      as (_ & _ & _ & Eo & Ef & Ei & _).
    destruct (step_without_resync e w Hs Hsame) as [-> | ->].
    + split; [done|]. intros H. destruct (Hclosed H) as [H0 ->]. auto.
    + unfold Spec.Idle. rewrite Eo, Ef, Ei. split; [done|]. intros H. destruct (Hclosed H) as [H0 ->]. auto.
Qed.

Lemma run_idle (es : list Event) (w : World) : Idle w -> Idle (run es w).
Proof.
  revert w. induction es as [|e es IH]; intros w Hw; simpl; [done|].
  apply IH. by apply step_idle.
Qed.

Lemma reachable_idle (es : list Event) (text : string) (vs : option (list T))
    (loading : option bool) :
  Idle (run es (mount text vs loading)).
Proof. apply run_idle, mount_idle. Qed.

(** *** What the handlers leave alone *)

Ltac break_handler :=
  unfold Select.handleKeyDown, Select.renderedOption, Select.handleBlurCallback,
    Select.handleOptionClick, Select.handleFocus, Select.handleChange,
    Select.handleClickOutside;
  repeat match goal with
    | |- context [if ?c then _ else _] => destruct c eqn:?
    | |- context [match ?x with Some _ => _ | None => _ end] => destruct x eqn:?
    end;
  simpl.

(** No handler writes the log; a handler that replaces the selected
    option stores a fresh object; only a render changes the values. *)
Lemma handle_frame (e : Event) (w : World) :
  reported (handle e w) = reported w
  /\ ((selectedOption (handle e w) = selectedOption w
       /\ selectedStamp (handle e w) = selectedStamp w)
      \/ selectedStamp (handle e w) = S (selectedStamp w))
  /\ (values (handle e w) = values w \/ exists vs loading, e = Select.Rerender T vs loading)
  /\ (inputValue (handle e w) = inputValue w
      \/ e = Select.Focus T \/ exists text, e = Select.Change T text).
Proof.
  destruct e as [|text|key|index|index| |captured|vs loading]; simpl;
    break_handler; split_and!; eauto.
Qed.

Lemma resyncEffect_frame (w : World) :
  values (resyncEffect w) = values w
  /\ selectedOption (resyncEffect w) = selectedOption w
  /\ selectedStamp (resyncEffect w) = selectedStamp w
  /\ reported (resyncEffect w) = reported w.
Proof. unfold Select.resyncEffect. by destruct (shouldUpdateInput w). Qed.

Lemma afterResync_frame (e : Event) (w : World) :
  values (afterResync e w) = values (handle e w)
  /\ selectedOption (afterResync e w) = selectedOption (handle e w)
  /\ selectedStamp (afterResync e w) = selectedStamp (handle e w)
  /\ reported (afterResync e w) = reported (handle e w).
Proof.
  unfold Select.afterResync. destruct (Select.resyncDepsChanged T w (handle e w)); [|done].
  apply resyncEffect_frame.
Qed.

Lemma step_unfold (e : Event) (w : World) :
  step e w
  = if Select.selectionDepsChanged T e w (handle e w)
    then onOptionSelectedEffect (afterResync e w) else afterResync e w.
Proof. reflexivity. Qed.

(** Steps keep the values and the selection of the handler. *)
Lemma step_frame (e : Event) (w : World) :
  values (step e w) = values (handle e w)
  /\ selectedOption (step e w) = selectedOption (handle e w)
  /\ selectedStamp (step e w) = selectedStamp (handle e w).
Proof.
  rewrite step_unfold.
  destruct (afterResync_frame e w) as (Hv & Hs & Hn & _).
  destruct (Select.selectionDepsChanged T e w (handle e w)); [|done].
  destruct (onOptionSelectedEffect_frame (afterResync e w))
    as (_ & -> & _ & _ & _ & _ & -> & ->). done.
Qed.

(** *** The focused index *)

Lemma step_MouseEnter (index : nat) (w : World) (o : Select.SelectOption) :
  Select.renderedOption T toLowerCase p index w = Some o ->
  step (Select.MouseEnter T index) w
  = Select.setCurrentFocusedOption T (JS.Num (Z.of_nat index)) w.
Proof.
  intros H. rewrite step_quiet; try discriminate; simpl; by rewrite H.
Qed.

Lemma step_Change (text : string) (w : World) :
  step (Select.Change T text) w = Select.setInputValue T text w.
Proof. by rewrite step_quiet. Qed.

(** C2, as the code has it. The focused index is -1 whenever the
    dropdown of a mounted widget is closed, and the resync step resets
    it to -1; a mouse-enter on a row on screen stores the index of that
    row, and an arrow key on a non-empty filtered list, from an index of
    at least -1, stores an index of that list: both lie in
    [[0, filteredOptions.length - 1]].  A change of the text or of the
    values recomputes the filtered list and leaves the focused index as
    it is. *)
Theorem focused_index_discipline (w : World) :
  (forall es text vs loading,
      w = run es (mount text vs loading) ->
      showOptions w = false -> currentFocusedOption w = JS.Num (-1))
  /\ (shouldUpdateInput w = true ->
      currentFocusedOption (resyncEffect w) = JS.Num (-1)
      /\ showOptions (resyncEffect w) = false)
  /\ (forall index o,
        Select.renderedOption T toLowerCase p index w = Some o ->
        let w' := step (Select.MouseEnter T index) w in
        currentFocusedOption w' = JS.Num (Z.of_nat index)
        /\ 0 <= Z.of_nat index <= Z.of_nat (length (filteredOptions w')) - 1)
  /\ (forall key i,
        showOptions w = true ->
        filteredOptions w <> [] ->
        currentFocusedOption w = JS.Num i ->
        -1 <= i ->
        key = "ArrowDown"%string \/ key = "ArrowUp"%string ->
        let w' := step (Select.KeyDown T key) w in
        exists j,
          currentFocusedOption w' = JS.Num j
          /\ 0 <= j <= Z.of_nat (length (filteredOptions w')) - 1)
  /\ (forall text,
        currentFocusedOption (step (Select.Change T text) w) = currentFocusedOption w)
  /\ (forall vs loading,
        currentFocusedOption (step (Select.Rerender T vs loading) w)
        = currentFocusedOption w).
Proof.
  split_and!.
  - intros es text vs loading -> H.
    by apply (reachable_idle es text vs loading).
  - intros H. by rewrite resyncEffect_pending.
  - intros index o H w'. subst w'. rewrite (step_MouseEnter _ _ _ H).
    split; [done|].
    rewrite (filteredOptions_ext T toLowerCase p _ w) by done.
    unfold Select.renderedOption in H. destruct (showOptions w); [|done].
    apply lookup_lt_Some in H. lia.
  - intros key i Ho Hne Hi Hlo Hk w'. subst w'.
    assert (filteredOptions (step (Select.KeyDown T key) w) = filteredOptions w) as E.
    { rewrite step_arrow by done.
      destruct Hk as [-> | ->]; [rewrite handle_ArrowDown | rewrite handle_ArrowUp];
        try done; by apply filteredOptions_ext. }
    rewrite E.
    assert (0 < Z.of_nat (length (filteredOptions w))) as Hn.
    { destruct (filteredOptions w); [done | simpl; lia]. }
    destruct (arrow_keys_wrap w i Ho Hne Hi Hlo) as [Hd Hu].
    destruct Hk as [-> | ->]; eexists; (split; [eassumption|]).
    + pose proof (Z.mod_pos_bound (i + 1) _ Hn). lia.
    + pose proof (Z.mod_pos_bound (i - 1 + Z.of_nat (length (filteredOptions w))) _ Hn). lia.
  - intros text. by rewrite step_Change.
  - intros vs loading.
    destruct (onOptionSelectedEffect_frame (handle (Select.Rerender T vs loading) w))
      as (_ & _ & _ & _ & _ & Ei & _).
    destruct (step_without_resync (Select.Rerender T vs loading) w) as [-> | ->];
      try done; by rewrite Ei.
Qed.

(** *** Committing and abandoning *)

Lemma handle_Enter (w : World) (i : Z) (o : Select.SelectOption) :
  showOptions w = true ->
  currentFocusedOption w = JS.Num i ->
  0 <= i ->
  filteredOptions w !! Z.to_nat i = Some o ->
  handleKeyDown "Enter" w
  = (Select.setShouldUpdateInput T true (Select.setSelectedOption T o w),
     Select.mkKeyEffects true false).
Proof.
  intros Ho Hi Hlo Hl. unfold Select.handleKeyDown. rewrite Ho, Hi. simpl.
  destruct (Z.eqb_spec i (-1)) as [E|_]; [lia|].
  destruct (Z.ltb_spec i 0) as [E|_]; [lia|].
  by rewrite Hl.
Qed.

Lemma handle_Enter_past_end (w : World) (i : Z) :
  showOptions w = true ->
  currentFocusedOption w = JS.Num i ->
  0 <= i ->
  filteredOptions w !! Z.to_nat i = None ->
  handleKeyDown "Enter" w
  = (Select.setShouldUpdateInput T true w, Select.mkKeyEffects true false).
Proof.
  intros Ho Hi Hlo Hl. unfold Select.handleKeyDown. rewrite Ho, Hi. simpl.
  destruct (Z.eqb_spec i (-1)) as [E|_]; [lia|].
  destruct (Z.ltb_spec i 0) as [E|_]; [lia|].
  by rewrite Hl.
Qed.

(** C5, as the code has it. On an open dropdown with no resync pending,
    Enter on a focused index [i >= 0] that holds the option
    [o = filteredOptions[i]], and a click on the row of [o], both make [o]
    the selected option, set the input text to the label of [o] and close
    the dropdown; Enter also prevents the default action of the key.
    Enter on a focused index [i >= 0] past the end of the filtered list
    commits nothing: it keeps the selected option, sets the text to its
    label (to the empty text when there is none), closes the dropdown and
    prevents the default action all the same. *)
Theorem commit_selects_and_closes (w : World) (o : Select.SelectOption) :
  showOptions w = true ->
  shouldUpdateInput w = false ->
  (forall i,
      currentFocusedOption w = JS.Num i ->
      0 <= i ->
      filteredOptions w !! Z.to_nat i = Some o ->
      let w' := step (Select.KeyDown T "Enter") w in
      selectedOption w' = Some o
      /\ inputValue w' = Select.label o
      /\ showOptions w' = false
      /\ Select.defaultPrevented (snd (handleKeyDown "Enter" w)) = true)
  /\ (forall index,
        filteredOptions w !! index = Some o ->
        let w' := step (Select.OptionClick T index) w in
        selectedOption w' = Some o
        /\ inputValue w' = Select.label o
        /\ showOptions w' = false)
  /\ (forall i,
        currentFocusedOption w = JS.Num i ->
        0 <= i ->
        filteredOptions w !! Z.to_nat i = None ->
        let w' := step (Select.KeyDown T "Enter") w in
        selectedOption w' = selectedOption w
        /\ inputValue w' = JS.nullish (Select.label <$> selectedOption w) ""%string
        /\ showOptions w' = false
        /\ Select.defaultPrevented (snd (handleKeyDown "Enter" w)) = true).
Proof.
  intros Ho Hf. split_and!.
  - intros i Hi Hlo Hl w'. subst w'.
    pose proof (handle_Enter w i o Ho Hi Hlo Hl) as E.
    assert (handle (Select.KeyDown T "Enter") w
            = Select.setShouldUpdateInput T true (Select.setSelectedOption T o w)) as Eh.
    { simpl. by rewrite E. }
    destruct (step_resync (Select.KeyDown T "Enter") w Hf) as (Ei & _ & Es & _ & _ & Eo & _).
    { by rewrite Eh. }
    rewrite Ei, Es, Eo, Eh, E. done.
  - intros index Hl w'. subst w'.
    assert (handle (Select.OptionClick T index) w = Select.handleOptionClick T o w) as Eh.
    { simpl. unfold Select.renderedOption. by rewrite Ho, Hl. }
    destruct (step_resync (Select.OptionClick T index) w Hf) as (Ei & _ & Es & _ & _ & Eo & _).
    { by rewrite Eh. }
    rewrite Ei, Es, Eo, Eh. done.
  - intros i Hi Hlo Hl w'. subst w'.
    pose proof (handle_Enter_past_end w i Ho Hi Hlo Hl) as E.
    assert (handle (Select.KeyDown T "Enter") w = Select.setShouldUpdateInput T true w) as Eh.
    { simpl. by rewrite E. }
    destruct (step_resync (Select.KeyDown T "Enter") w Hf) as (Ei & _ & Es & _ & _ & Eo & _).
    { by rewrite Eh. }
    rewrite Ei, Es, Eo, Eh, E. done.
Qed.

(** C6. With no resync pending, Escape on an open dropdown sets the
    input text to the label of the selected option (to the empty string
    when there is none), closes the dropdown and keeps the selected
    option; Escape on a closed dropdown changes nothing and does not
    touch the event. *)
Theorem escape_restores_or_ignores (w : World) :
  shouldUpdateInput w = false ->
  (showOptions w = true ->
   let w' := step (Select.KeyDown T "Escape") w in
   inputValue w' = JS.nullish (Select.label <$> selectedOption w) ""%string
   /\ showOptions w' = false
   /\ selectedOption w' = selectedOption w)
  /\ (showOptions w = false ->
      step (Select.KeyDown T "Escape") w = w
      /\ snd (handleKeyDown "Escape" w) = Select.untouched).
Proof.
  intros Hf. split.
  - intros Ho w'. subst w'.
    assert (handle (Select.KeyDown T "Escape") w = Select.setShouldUpdateInput T true w) as Eh.
    { simpl. unfold Select.handleKeyDown. by rewrite Ho. }
    destruct (step_resync (Select.KeyDown T "Escape") w Hf) as (Ei & _ & Es & _ & _ & Eo & _).
    { by rewrite Eh. }
    rewrite Ei, Es, Eo, Eh. done.
  - intros Hc.
    assert (handleKeyDown "Escape" w = (w, Select.untouched)) as E.
    { unfold Select.handleKeyDown. by rewrite Hc. }
    split; [|by rewrite E].
    rewrite step_quiet; try discriminate; simpl; by rewrite E.
Qed.

(** *** Reporting the selection *)

Lemma selectionDepsChanged_true (e : Event) (w : World) :
  selectedOption (handle e w) <> selectedOption w \/ values (handle e w) <> values w ->
  Select.selectionDepsChanged T e w (handle e w) = true.
Proof.
  intros H. unfold Select.selectionDepsChanged.
  destruct (handle_frame e w) as (_ & Hs & Hv & _).
  destruct H as [H | H].
  - destruct Hs as [[Hs _] | Hs]; [done|].
    rewrite Hs. destruct (Nat.eqb_spec (selectedStamp w) (S (selectedStamp w))); [lia|done].
  - destruct Hv as [Hv | (vs & loading & ->)]; [done|].
    apply orb_true_r.
Qed.

(** C7. When a step changes the selected option or the values list and
    leaves an option [o] selected, the callback (if one was supplied) is
    called once more, with the first value of the values list whose
    option has the value identifier of [o], and with [undefined] when no
    value of the list has it. *)
Theorem selection_is_reported (w : World) (e : Event) (o : Select.SelectOption) :
  Select.onOptionSelected T p = true ->
  selectedOption (step e w) = Some o ->
  (selectedOption (step e w) <> selectedOption w \/ values (step e w) <> values w ->
   reported (step e w) = reported w ++ [Select.toValue T p (step e w) o])
  /\ (forall v,
        Select.toValue T p (step e w) o = Some v <->
        exists pre post,
          Select.valuesOrEmpty T (step e w) = pre ++ v :: post
          /\ Select.value (Select.toOption T p v) = Select.value o
          /\ forall u, u ∈ pre -> Select.value (Select.toOption T p u) <> Select.value o)
  /\ (Select.toValue T p (step e w) o = None <->
      forall v, v ∈ Select.valuesOrEmpty T (step e w) ->
                Select.value (Select.toOption T p v) <> Select.value o).
Proof.
  intros Hcb Hsel. split_and!.
  - destruct (step_frame e w) as (Hv & Hs & _). rewrite Hv, Hs. intros Hch.
    assert (Select.toValue T p (step e w) o = Select.toValue T p (afterResync e w) o) as ->.
    { unfold Select.toValue, Select.valuesOrEmpty.
      destruct (afterResync_frame e w) as (-> & _). by rewrite Hv. }
    rewrite step_unfold, (selectionDepsChanged_true e w Hch).
    destruct (afterResync_frame e w) as (_ & Hs' & _ & Hr).
    destruct (handle_frame e w) as (Hr' & _).
    unfold Select.onOptionSelectedEffect, Select.onOptionSelectedCall.
    rewrite Hcb, Hs', <- Hs, Hsel. simpl. by rewrite Hr, Hr'.
  - intros v. unfold Select.toValue. rewrite find_Some_iff.
    split; intros (pre & post & H1 & H2 & H3); exists pre, post; split_and!; try done.
    + by apply String.eqb_eq.
    + intros u Hu. apply String.eqb_neq. auto.
    + by apply String.eqb_eq.
    + intros u Hu. apply String.eqb_neq. auto.
  - unfold Select.toValue. rewrite find_None_iff.
    split; intros H v Hv; apply String.eqb_neq; auto.
Qed.

(** *** Mounting *)

(** C10. Without an initial value the first render selects the first
    mapped option ([undefined] for an empty or undefined values list) with
    the resync flag up, and mounting then replaces the caller's text by
    the label of that option, or by the empty string when there is
    none. *)
Theorem mount_without_initial_value (text : string) (vs : option (list T))
    (loading : option bool) :
  Select.initialValue T p = None ->
  let first := Select.firstRender T truthy p text vs loading in
  let w := mount text vs loading in
  shouldUpdateInput first = true
  /\ selectedOption first = map (Select.toOption T p) (default [] vs) !! 0%nat
  /\ selectedOption w = selectedOption first
  /\ (default [] vs = [] -> selectedOption w = None /\ inputValue w = ""%string)
  /\ (forall v rest,
        default [] vs = v :: rest ->
        selectedOption w = Some (Select.toOption T p v)
        /\ inputValue w = Select.label (Select.toOption T p v)).
Proof.
  intros Hini first w.
  assert (selectedOption first = map (Select.toOption T p) (default [] vs) !! 0%nat) as Hfirst.
  { subst first. unfold Select.firstRender. simpl.
    unfold Select.initialSelectedOption. by rewrite Hini. }
  assert (selectedOption w = selectedOption first /\
          inputValue w = JS.nullish (Select.label <$> selectedOption first) ""%string)
    as [Hsel Hin].
  { subst w first. unfold Select.mount.
    destruct (onOptionSelectedEffect_frame
                (resyncEffect (Select.firstRender T truthy p text vs loading)))
      as (-> & _ & _ & _ & _ & _ & -> & _).
    by rewrite resyncEffect_pending. }
  split_and!; try done.
  - intros E. rewrite Hin, Hsel, Hfirst, E. done.
  - intros v rest E. rewrite Hin, Hsel, Hfirst, E. done.
Qed.

(** *** Rendering *)

Lemma imap_option_rows (l : list Select.SelectOption) (n : JS.number) :
  (if Z.ltb 0 (Z.of_nat (length l))
   then imap (fun index o => Select.OptionRow o (JS.strict_eq (JS.Num (Z.of_nat index)) n)) l
   else [])
  = imap (fun index o => Select.OptionRow o (JS.strict_eq (JS.Num (Z.of_nat index)) n)) l.
Proof. by destruct l. Qed.

(** C4, as the code has it. While the loading flag is set and the
    dropdown is open, the listbox shows the loading placeholder row
    first, then one option row for each filtered option, and never the
    "no options" row. *)
Theorem loading_rows (w : World) :
  Select.truthyFlag (Select.isLoading T w) = true ->
  showOptions w = true ->
  exists rows,
    Select.renderList T toLowerCase p w = Some rows
    /\ rows
       = Select.LoadingPlaceholder
         :: imap (fun index o =>
                    Select.OptionRow o
                      (JS.strict_eq (JS.Num (Z.of_nat index)) (currentFocusedOption w)))
                 (filteredOptions w)
    /\ Select.NoOptionsPlaceholder ∉ rows.
Proof.
  intros Hl Ho. eexists. split_and!.
  - unfold Select.renderList. rewrite Ho, Hl, imap_option_rows.
    change (negb true) with false. rewrite andb_false_r.
    cbn [app]. by rewrite app_nil_r.
  - reflexivity.
  - intros H. apply elem_of_cons in H as [H | H]; [discriminate|].
    apply elem_of_lookup_imap in H as (i & o & H & _). discriminate.
Qed.

(** *** An undefined values list *)

Local Abbreviation undefinedAsEmpty := (Spec.undefinedAsEmpty T).
Local Abbreviation eventAsEmpty := (Spec.eventAsEmpty T).

Lemma filteredOptions_asEmpty (w : World) :
  filteredOptions (undefinedAsEmpty w) = filteredOptions w.
Proof. reflexivity. Qed.

Lemma handleKeyDown_asEmpty (key : string) (w : World) :
  handleKeyDown key (undefinedAsEmpty w)
  = (undefinedAsEmpty (fst (handleKeyDown key w)), snd (handleKeyDown key w)).
Proof.
  unfold Select.handleKeyDown. rewrite filteredOptions_asEmpty.
  change (showOptions (undefinedAsEmpty w)) with (showOptions w).
  change (currentFocusedOption (undefinedAsEmpty w)) with (currentFocusedOption w).
  repeat match goal with
    | |- context [if ?c then _ else _] => destruct c
    | |- context [match ?x with Some _ => _ | None => _ end] => destruct x
    end; reflexivity.
Qed.

Lemma handle_asEmpty (e : Event) (w : World) :
  handle (eventAsEmpty e) (undefinedAsEmpty w) = undefinedAsEmpty (handle e w).
Proof.
  destruct e as [|text|key|index|index| |captured|vs loading]; simpl; try reflexivity.
  - by rewrite handleKeyDown_asEmpty.
  - change (Select.renderedOption T toLowerCase p index (undefinedAsEmpty w))
      with (Select.renderedOption T toLowerCase p index w).
    by destruct (Select.renderedOption T toLowerCase p index w).
  - change (Select.renderedOption T toLowerCase p index (undefinedAsEmpty w))
      with (Select.renderedOption T toLowerCase p index w).
    by destruct (Select.renderedOption T toLowerCase p index w).
  - by destruct captured.
Qed.

Lemma resyncEffect_asEmpty (w : World) :
  resyncEffect (undefinedAsEmpty w) = undefinedAsEmpty (resyncEffect w).
Proof. unfold Select.resyncEffect. simpl. by destruct (shouldUpdateInput w). Qed.

Lemma onOptionSelectedCall_asEmpty (w : World) :
  Select.onOptionSelectedCall T p (undefinedAsEmpty w) = Select.onOptionSelectedCall T p w.
Proof. reflexivity. Qed.

Lemma onOptionSelectedEffect_asEmpty (w : World) :
  onOptionSelectedEffect (undefinedAsEmpty w) = undefinedAsEmpty (onOptionSelectedEffect w).
Proof.
  unfold Select.onOptionSelectedEffect. rewrite onOptionSelectedCall_asEmpty.
  by destruct (Select.onOptionSelectedCall T p w).
Qed.

Lemma step_asEmpty (e : Event) (w : World) :
  step (eventAsEmpty e) (undefinedAsEmpty w) = undefinedAsEmpty (step e w).
Proof.
  unfold Select.step, Select.afterResync. rewrite handle_asEmpty.
  change (Select.resyncDepsChanged T (undefinedAsEmpty w) (undefinedAsEmpty (handle e w)))
    with (Select.resyncDepsChanged T w (handle e w)).
  assert (Select.selectionDepsChanged T (eventAsEmpty e) (undefinedAsEmpty w)
            (undefinedAsEmpty (handle e w))
          = Select.selectionDepsChanged T e w (handle e w)) as -> by by destruct e.
  destruct (Select.resyncDepsChanged T w (handle e w));
    destruct (Select.selectionDepsChanged T e w (handle e w));
    by rewrite ?resyncEffect_asEmpty, ?onOptionSelectedEffect_asEmpty.
Qed.

Lemma run_asEmpty (es : list Event) (w : World) :
  run (map eventAsEmpty es) (undefinedAsEmpty w) = undefinedAsEmpty (run es w).
Proof.
  revert w. induction es as [|e es IH]; intros w; simpl; [done|].
  by rewrite step_asEmpty, IH.
Qed.

Lemma filteredOptions_undefined (w : World) :
  values w = None -> filteredOptions w = [].
Proof.
  intros H. unfold Select.filteredOptions, Select.options, Select.valuesOrEmpty.
  rewrite H. simpl. by destruct (Nat.eqb _ 0).
Qed.


End MachineFacts.

(** ** The debounce hook *)

Section DebounceFacts.

Variable Call : Type.

Local Abbreviation Runtime := (Debounce.Runtime Call).
Local Abbreviation Timer := (Debounce.Timer Call).
Local Abbreviation now := (Debounce.now Call).
Local Abbreviation pending := (Debounce.pending Call).
Local Abbreviation nextId := (Debounce.nextId Call).
Local Abbreviation debounceRef := (Debounce.debounceRef Call).
Local Abbreviation fired := (Debounce.fired Call).
Local Abbreviation firedIds := (Debounce.firedIds Call).
Local Abbreviation timerId := (Debounce.timerId Call).
Local Abbreviation deadline := (Debounce.deadline Call).
Local Abbreviation call := (Debounce.call Call).
Local Abbreviation debounce := (Debounce.debounce Call).
Local Abbreviation elapse := (Debounce.elapse Call).
Local Abbreviation fireDue := (Debounce.fireDue Call).
Local Abbreviation step := (Debounce.step Call).
Local Abbreviation run := (Debounce.run Call).
Local Abbreviation Invoke := (Debounce.Invoke Call).
Local Abbreviation Elapse := (Debounce.Elapse Call).
Local Abbreviation SingleSlot := (Spec.SingleSlot Call).
Local Abbreviation Cancelled := (Spec.Cancelled Call).

Local Open Scope nat_scope.

Lemma run_app (es1 es2 : list (Debounce.Event Call)) (rt : Runtime) :
  run (es1 ++ es2) rt = run es2 (run es1 rt).
Proof. unfold Debounce.run. apply fold_left_app. Qed.

(** A delay that fits a signed 32-bit integer is taken as it is. *)
Lemma longDelay_small (delay : nat) :
  (N.of_nat delay < 2147483648)%N -> Debounce.longDelay delay = delay.
Proof.
  intros H. unfold Debounce.longDelay.
  rewrite N.mod_small by lia.
  destruct (N.ltb_spec (N.of_nat delay) 2147483648); [apply Nat2N.id | lia].
Qed.

(** A delay of [2^31] milliseconds comes out as no delay at all. *)
Lemma longDelay_wraps (delay : nat) :
  N.of_nat delay = 2147483648%N -> Debounce.longDelay delay = 0.
Proof. intros H. unfold Debounce.longDelay. by rewrite H. Qed.

(** An invocation on a single-slot runtime leaves exactly the new
    timer. *)
Lemma debounce_result (c : Call) (delay : nat) (rt : Runtime) :
  SingleSlot rt ->
  debounce c delay rt
  = Debounce.mkRuntime Call (now rt)
      [Debounce.mkTimer Call (nextId rt) (now rt + Debounce.longDelay delay) c]
      (S (nextId rt)) (Some (nextId rt)) (fired rt).
Proof.
  intros (Hn & Href & Hp & _). unfold Debounce.debounce.
  destruct Hp as [Hp | (t & Hp & Ht)].
  - destruct (debounceRef rt) as [i|] eqn:E.
    + destruct (Href i eq_refl) as [Hi _].
      destruct (Nat.eqb_spec i 0) as [->|_]; [lia|].
      unfold Debounce.setTimeout, Debounce.clearTimeout, Debounce.setRef. simpl.
      by rewrite Hp.
    + unfold Debounce.setTimeout, Debounce.setRef. simpl. by rewrite Hp.
  - rewrite Ht. destruct (Href _ Ht) as [Hi _].
    destruct (Nat.eqb_spec (timerId t) 0) as [E|_]; [lia|].
    unfold Debounce.setTimeout, Debounce.clearTimeout, Debounce.setRef. simpl.
    rewrite Hp. simpl. by rewrite Nat.eqb_refl.
Qed.

Lemma elapse_none (dt : nat) (rt : Runtime) :
  pending rt = [] ->
  elapse dt rt
  = Debounce.mkRuntime Call (now rt + dt) [] (nextId rt) (debounceRef rt) (fired rt).
Proof.
  revert rt. induction dt as [|dt IH]; intros rt Hp; simpl.
  - unfold Debounce.fireDue. rewrite Hp. simpl.
    by rewrite app_nil_r, Nat.add_0_r.
  - rewrite IH.
    + unfold Debounce.fireDue. rewrite Hp. simpl.
      rewrite app_nil_r. f_equal. lia.
    + unfold Debounce.fireDue. by rewrite Hp.
Qed.

(** Time passing over a single pending timer: it fires once its
    deadline is reached, and not before. *)
Lemma elapse_single (dt : nat) (rt : Runtime) (t : Timer) :
  pending rt = [t] ->
  elapse dt rt
  = if Nat.leb (deadline t) (now rt + dt)
    then Debounce.mkRuntime Call (now rt + dt) [] (nextId rt) (debounceRef rt)
           (fired rt ++ [(timerId t, call t)])
    else Debounce.mkRuntime Call (now rt + dt) [t] (nextId rt) (debounceRef rt) (fired rt).
Proof.
  revert rt. induction dt as [|dt IH]; intros rt Hp; simpl.
  - unfold Debounce.fireDue, Debounce.isDue. rewrite Hp, Nat.add_0_r. simpl.
    destruct (Nat.leb (deadline t) (now rt)); simpl; by rewrite ?app_nil_r.
  - destruct (Nat.leb_spec (deadline t) (now rt)) as [Hdue | Hnot].
    + rewrite elapse_none.
      * unfold Debounce.fireDue, Debounce.isDue. rewrite Hp. simpl.
        destruct (Nat.leb_spec (deadline t) (now rt)) as [_|]; [|lia]. simpl.
        destruct (Nat.leb_spec (deadline t) (now rt + S dt)) as [_|]; [|lia].
        f_equal. lia.
      * unfold Debounce.fireDue, Debounce.isDue. rewrite Hp. simpl.
        by destruct (Nat.leb_spec (deadline t) (now rt)) as [_|]; [|lia].
    + assert (fireDue rt
              = Debounce.mkRuntime Call (now rt) [t] (nextId rt) (debounceRef rt) (fired rt))
        as ->.
      { unfold Debounce.fireDue, Debounce.isDue. rewrite Hp. simpl.
        destruct (Nat.leb_spec (deadline t) (now rt)) as [|_]; [lia|]. simpl.
        by rewrite app_nil_r. }
      rewrite IH by done. simpl.
      replace (now rt + S dt) with (S (now rt + dt)) by lia. reflexivity.
Qed.

Lemma initial_single_slot : SingleSlot (Debounce.initial Call).
Proof.
  unfold Spec.SingleSlot. simpl. split_and!; [lia | done | by left |].
  intros i Hi. inversion Hi.
Qed.

Lemma step_single_slot (e : Debounce.Event Call) (rt : Runtime) :
  SingleSlot rt -> SingleSlot (step e rt).
Proof.
  intros Hrt. pose proof Hrt as (Hn & Href & Hp & Hf).
  destruct e as [c delay | dt]; simpl.
  - rewrite debounce_result by done. unfold Spec.SingleSlot. simpl. split_and!.
    + lia.
    + intros i [= <-]. lia.
    + right. by eexists.
    + intros i Hi. apply Hf in Hi. lia.
  - destruct Hp as [Hp | (t & Hp & Ht)].
    + rewrite elapse_none by done. unfold Spec.SingleSlot. simpl.
      split_and!; [done | done | by left | done].
    + rewrite (elapse_single dt rt t Hp).
      destruct (Nat.leb (deadline t) (now rt + dt)); unfold Spec.SingleSlot; simpl;
        split_and!; try done.
      * by left.
      * intros i Hi. unfold Debounce.firedIds in Hi. simpl in Hi.
        rewrite map_app in Hi. apply elem_of_app in Hi as [Hi | Hi].
        -- by apply Hf.
        -- simpl in Hi. apply list_elem_of_singleton in Hi as ->.
           by destruct (Href _ Ht).
      * right. by exists t.
Qed.

Lemma run_single_slot (es : list (Debounce.Event Call)) (rt : Runtime) :
  SingleSlot rt -> SingleSlot (run es rt).
Proof.
  revert rt. induction es as [|e es IH]; intros rt Hrt; simpl; [done|].
  apply IH. by apply step_single_slot.
Qed.

(** A cancelled timer stays cancelled. *)
Lemma step_cancelled (id : nat) (e : Debounce.Event Call) (rt : Runtime) :
  SingleSlot rt -> Cancelled id rt -> Cancelled id (step e rt).
Proof.
  intros Hrt (Hp & Hf & Hlt). pose proof Hrt as (_ & _ & Hslot & _).
  destruct e as [c delay | dt]; simpl.
  - rewrite debounce_result by done. unfold Spec.Cancelled. simpl. split_and!.
    + intros H. apply list_elem_of_singleton in H. lia.
    + done.
    + lia.
  - destruct Hslot as [E | (t & E & _)].
    + rewrite elapse_none by done. unfold Spec.Cancelled. simpl.
      split_and!; [|done..]. intros H. inversion H.
    + rewrite (elapse_single dt rt t E). rewrite E in Hp. simpl in Hp.
      destruct (Nat.leb (deadline t) (now rt + dt)); unfold Spec.Cancelled; simpl;
        split_and!; try done.
      * intros H. inversion H.
      * unfold Debounce.firedIds. simpl. rewrite map_app. simpl.
        intros H. apply elem_of_app in H as [H | H]; [done|].
        apply Hp. apply list_elem_of_singleton in H as ->. left.
Qed.

Lemma run_cancelled (id : nat) (es : list (Debounce.Event Call)) (rt : Runtime) :
  SingleSlot rt -> Cancelled id rt -> Cancelled id (run es rt).
Proof.
  revert rt. induction es as [|e es IH]; intros rt Hrt Hc; simpl; [done|].
  apply IH; [by apply step_single_slot | by apply step_cancelled].
Qed.

(** Time passing short of the deadline leaves the timer pending. *)
Lemma run_quiet_before (quiet : list nat) (rt : Runtime) (t : Timer) :
  pending rt = [t] ->
  now rt + list_sum quiet < deadline t ->
  run (map Elapse quiet) rt
  = Debounce.mkRuntime Call (now rt + list_sum quiet) [t] (nextId rt) (debounceRef rt)
      (fired rt).
Proof.
  revert rt. induction quiet as [|dt quiet IH]; intros rt Hp Hlt; simpl in *.
  - rewrite Nat.add_0_r, <- Hp. by destruct rt.
  - rewrite (elapse_single dt rt t Hp).
    destruct (Nat.leb_spec (deadline t) (now rt + dt)) as [|_]; [lia|].
    rewrite IH; simpl; [|done|lia]. f_equal. lia.
Qed.

Lemma run_quiet_none (quiet : list nat) (rt : Runtime) :
  pending rt = [] -> fired (run (map Elapse quiet) rt) = fired rt.
Proof.
  revert rt. induction quiet as [|dt quiet IH]; intros rt Hp; simpl; [done|].
  rewrite (elapse_none dt rt Hp). by rewrite IH.
Qed.

(** Time passing up to the deadline or past it fires the timer, once. *)
Lemma run_quiet_after (quiet : list nat) (rt : Runtime) (t : Timer) :
  pending rt = [t] ->
  quiet <> [] ->
  deadline t <= now rt + list_sum quiet ->
  fired (run (map Elapse quiet) rt) = fired rt ++ [(timerId t, call t)].
Proof.
  revert rt. induction quiet as [|dt quiet IH]; intros rt Hp Hne Hle; [done|].
  simpl in *. rewrite (elapse_single dt rt t Hp).
  destruct (Nat.leb_spec (deadline t) (now rt + dt)) as [Hdue | Hnot].
  - by rewrite run_quiet_none.
  - destruct quiet as [|dt' quiet]; [simpl in Hle; lia|].
    rewrite IH; simpl in *; [done | done | done | lia].
Qed.

(** C9. On every runtime reached from the initial one by invocations
    and passing time: at most one timer is pending; an invocation
    cancels the pending timer and leaves exactly one, its own, due after
    the delay, and makes no call; an invocation followed by another one
    before its delay has passed never makes its call; an invocation
    followed by no other one until its delay has passed makes its call,
    once, and no other call is made.  The delays are those that the host
    takes as they are, below [2^31] milliseconds. *)
Theorem debounce_single_slot (history : list (Debounce.Event Call)) :
  let rt := run history (Debounce.initial Call) in
  length (pending rt) <= 1
  /\ (forall c delay,
        (N.of_nat delay < 2147483648)%N ->
        let rt' := debounce c delay rt in
        pending rt' = [Debounce.mkTimer Call (nextId rt) (now rt + delay) c]
        /\ debounceRef rt' = Some (nextId rt)
        /\ fired rt' = fired rt)
  /\ (forall c delay quiet c' delay' rest,
        (N.of_nat delay < 2147483648)%N ->
        list_sum quiet < delay ->
        nextId rt
        ∉ firedIds (run (Invoke c delay :: map Elapse quiet ++ Invoke c' delay' :: rest) rt))
  /\ (forall c delay quiet,
        (N.of_nat delay < 2147483648)%N ->
        quiet <> [] ->
        delay <= list_sum quiet ->
        fired (run (Invoke c delay :: map Elapse quiet) rt)
        = fired rt ++ [(nextId rt, c)]).
Proof.
  intros rt.
  assert (SingleSlot rt) as Hrt by apply run_single_slot, initial_single_slot.
  split_and!.
  - destruct Hrt as (_ & _ & [-> | (t & -> & _)] & _); simpl; lia.
  - intros c delay Hfit rt'. subst rt'.
    by rewrite debounce_result, (longDelay_small delay Hfit).
  - intros c delay quiet c' delay' rest Hfit Hlt.
    change (run (Invoke c delay :: map Elapse quiet ++ Invoke c' delay' :: rest) rt)
      with (run (map Elapse quiet ++ Invoke c' delay' :: rest) (debounce c delay rt)).
    rewrite run_app, debounce_result, (longDelay_small delay Hfit) by done.
    rewrite (run_quiet_before quiet _ (Debounce.mkTimer Call (nextId rt) (now rt + delay) c))
      by (simpl; done || lia).
    simpl.
    set (mid := Debounce.mkRuntime Call _ _ _ _ _).
    assert (SingleSlot mid) as Hmid.
    { destruct Hrt as (Hn & Href & _ & Hf). subst mid. unfold Spec.SingleSlot. simpl.
      split_and!; [lia | intros i [= <-]; lia | right; by eexists |].
      intros i Hi. apply Hf in Hi. lia. }
    assert (Cancelled (nextId rt) (debounce c' delay' mid)) as Hc.
    { rewrite debounce_result by done. subst mid. unfold Spec.Cancelled. simpl.
      split_and!; [|  | lia].
      - intros H. apply list_elem_of_singleton in H. lia.
      - intros H. destruct Hrt as (_ & _ & _ & Hf). apply Hf in H. lia. }
    apply (run_cancelled _ rest) in Hc; [by destruct Hc as (_ & ? & _)|].
    by apply (step_single_slot (Invoke c' delay')).
  - intros c delay quiet Hfit Hne Hle.
    change (run (Invoke c delay :: map Elapse quiet) rt)
      with (run (map Elapse quiet) (debounce c delay rt)).
    rewrite debounce_result, (longDelay_small delay Hfit) by done.
    rewrite (run_quiet_after quiet _ (Debounce.mkTimer Call (nextId rt) (now rt + delay) c));
      simpl; done || lia.
Qed.

End DebounceFacts.

(** ** The demo application: scenarios *)

Section Scenarios.

Local Abbreviation Word := App.Word.

Example lowercase_mixed : App.toLowerCase "CaT-9" = "cat-9"%string.
Proof. reflexivity. Qed.

Example includes_inside : JS.includes "concatenate" "cat" = true.
Proof. reflexivity. Qed.

Example includes_empty_search : JS.includes "" "" = true.
Proof. reflexivity. Qed.

Example includes_absent : JS.includes "dog" "cat" = false.
Proof. reflexivity. Qed.

Example rem_by_zero : JS.rem (JS.Num 0) (JS.Num 0) = JS.NaN.
Proof. reflexivity. Qed.

Example index_NaN : JS.index [App.cat; App.dog] JS.NaN = None.
Proof. reflexivity. Qed.

(** Mounting selects the first suggestion and shows its label; the
    selection effect calls the callback with the first suggestion. *)
Example mounted_world :
  Spec.visible Word App.mounted
  = ("cat"%string, Some [App.cat; App.dog], None, false, false, JS.Num (-1),
     Some (Select.mkOption "cat" "cat"))
  /\ Select.onOptionSelectedCall Word App.props App.mounted = Some (Some App.cat).
Proof. split; reflexivity. Qed.

(** One suggestion, the text "ca", arrow-down, Enter: "cat" is
    selected, shown and reported. *)
Example type_arrow_enter :
  let w := App.run [Select.Focus Word; Select.Change Word "ca";
                    Select.KeyDown Word "ArrowDown"; Select.KeyDown Word "Enter"]
                   (App.mount "" (Some [App.cat]) None) in
  Select.selectedOption Word w = Some (Select.mkOption "cat" "cat")
  /\ Select.inputValue Word w = "cat"%string
  /\ Select.showOptions Word w = false
  /\ last (Select.reported Word w) = Some (Some App.cat).
Proof. vm_compute. done. Qed.

(** An undefined values list while loading: only the loading row. *)
Example loading_without_values :
  App.renderList (App.run [Select.Focus Word] (App.mount "" None (Some true)))
  = Some [Select.LoadingPlaceholder].
Proof. reflexivity. Qed.

Example no_options_row :
  App.renderList App.noMatch = Some [Select.NoOptionsPlaceholder].
Proof. reflexivity. Qed.

(** After [NaN] has been stored, Enter on the empty list prevents the
    default action and closes the dropdown. *)
Example enter_after_NaN :
  let w := App.step (Select.KeyDown Word "ArrowDown") App.noMatch in
  Select.defaultPrevented (snd (Select.handleKeyDown Word App.toLowerCase App.props "Enter" w))
  = true
  /\ Select.showOptions Word (App.step (Select.KeyDown Word "Enter") w) = false.
Proof. vm_compute. done. Qed.

(** Once [NaN] is stored the arrow keys keep it, also on a list that
    is no longer empty, until the next resync. *)
Example arrows_stuck_after_NaN :
  let w := App.run [Select.KeyDown Word "ArrowDown"; Select.Change Word "";
                    Select.KeyDown Word "ArrowDown"] App.noMatch in
  App.filteredOptions w = [App.toOption App.cat; App.toOption App.dog]
  /\ Select.currentFocusedOption Word w = JS.NaN.
Proof. vm_compute. done. Qed.

(** Enter on a focused index past the end of the filtered list keeps
    the selection. *)
Example enter_past_the_end :
  Select.selectedOption Word (App.step (Select.KeyDown Word "Enter") App.staleFocus)
  = Select.selectedOption Word App.staleFocus.
Proof. reflexivity. Qed.

End Scenarios.

(** ** The theorems at concrete inputs *)

Lemma arrow_key_on_empty_list_witness :
  Select.showOptions App.Word App.noMatch = true
  /\ App.filteredOptions App.noMatch = []
  /\ Select.currentFocusedOption App.Word
       (App.step (Select.KeyDown App.Word "ArrowDown") App.noMatch) = JS.NaN.
Proof.
  do 2 (split; [reflexivity|]).
  apply (arrow_key_on_empty_list App.Word App.toLowerCase App.props App.noMatch "ArrowDown");
    [reflexivity | reflexivity | left; reflexivity].
Defined.

(** C2 (counterexample). After the mouse has moved onto the second of two
    rows and a text has been typed that leaves one row, the focused index
    is still 1, above [filteredOptions.length - 1 = 0]. *)
Lemma focus_not_reset_by_typing :
  ~ Spec.FocusWithinBounds App.Word App.toLowerCase App.props App.staleFocus.
Proof.
  intros (i & Hi & Hb).
  assert (i = 1) as -> by (vm_compute in Hi; congruence).
  assert (length (Select.filteredOptions App.Word App.toLowerCase App.props App.staleFocus)
          = 1%nat) as E by reflexivity.
  rewrite E in Hb. simpl in Hb. lia.
Qed.

Lemma focused_index_discipline_witness :
  Select.renderedOption App.Word App.toLowerCase App.props 1 App.opened
  = Some (App.toOption App.dog)
  /\ Select.currentFocusedOption App.Word (App.step (Select.MouseEnter App.Word 1) App.opened)
     = JS.Num 1.
Proof.
  split; [reflexivity|].
  destruct (focused_index_discipline App.Word App.truthy App.toLowerCase App.props App.opened)
    as (_ & _ & H & _).
  apply (H 1%nat (App.toOption App.dog)). reflexivity.
Defined.

(** C4 (counterexample). While a fetch is in flight with the previous
    suggestion kept, the open listbox shows the option row after the
    loading row. *)
Lemma option_rows_while_loading :
  Select.truthyFlag (Select.isLoading App.Word App.refetching) = true
  /\ Select.showOptions App.Word App.refetching = true
  /\ ~ Spec.NoOptionRows App.Word App.toLowerCase App.props App.refetching.
Proof.
  split_and!; [reflexivity | reflexivity |].
  intros H.
  apply (H [Select.LoadingPlaceholder; Select.OptionRow (App.toOption App.cat) false]
           (App.toOption App.cat) false); [reflexivity|].
  right. left.
Qed.

Lemma loading_rows_witness :
  Select.truthyFlag (Select.isLoading App.Word App.refetching) = true
  /\ Select.showOptions App.Word App.refetching = true
  /\ exists rows,
      App.renderList App.refetching = Some rows
      /\ Select.NoOptionsPlaceholder ∉ rows.
Proof.
  do 2 (split; [reflexivity|]).
  destruct (loading_rows App.Word App.toLowerCase App.props App.refetching)
    as (rows & H1 & _ & H2); [reflexivity | reflexivity |].
  exists rows. split; assumption.
Defined.

(** C5 (counterexample). With the focused index left at 1 on a filtered
    list of one row, the dropdown is open and the index is at least zero,
    yet Enter commits no option: there is none at index 1, and the
    selected option stays the one it was. *)
Lemma enter_on_stale_index :
  Select.showOptions App.Word App.staleFocus = true
  /\ Select.currentFocusedOption App.Word App.staleFocus = JS.Num 1
  /\ ~ Spec.EnterCommitsFocused App.Word App.toLowerCase App.props App.staleFocus
  /\ Select.selectedOption App.Word
       (App.step (Select.KeyDown App.Word "Enter") App.staleFocus)
     = Select.selectedOption App.Word App.staleFocus.
Proof.
  split_and!; try reflexivity.
  intros H. destruct (H 1) as (o & Hl & _); [reflexivity | lia |].
  vm_compute in Hl. discriminate.
Qed.

Lemma commit_selects_and_closes_witness :
  Select.showOptions App.Word App.firstFocused = true
  /\ Select.shouldUpdateInput App.Word App.firstFocused = false
  /\ Select.currentFocusedOption App.Word App.firstFocused = JS.Num 0
  /\ App.filteredOptions App.firstFocused !! Z.to_nat 0 = Some (App.toOption App.cat)
  /\ Select.selectedOption App.Word
       (App.step (Select.KeyDown App.Word "Enter") App.firstFocused)
     = Some (App.toOption App.cat)
  /\ Select.showOptions App.Word
       (App.step (Select.KeyDown App.Word "Enter") App.firstFocused) = false.
Proof.
  do 4 (split; [reflexivity|]).
  destruct (commit_selects_and_closes App.Word App.toLowerCase App.props
              App.firstFocused (App.toOption App.cat)) as [H _];
    [reflexivity | reflexivity |].
  destruct (H 0) as (H1 & H2 & H3 & H4); [reflexivity | lia | reflexivity |].
  split; assumption.
Defined.

Lemma escape_restores_or_ignores_witness :
  Select.shouldUpdateInput App.Word App.opened = false
  /\ Select.showOptions App.Word App.opened = true
  /\ Select.inputValue App.Word (App.step (Select.KeyDown App.Word "Escape") App.opened)
     = "cat"%string
  /\ Select.showOptions App.Word (App.step (Select.KeyDown App.Word "Escape") App.opened)
     = false.
Proof.
  do 2 (split; [reflexivity|]).
  destruct (escape_restores_or_ignores App.Word App.toLowerCase App.props App.opened)
    as [H _]; [reflexivity|].
  destruct H as (H1 & H2 & H3); [reflexivity|].
  split; assumption.
Defined.

Lemma selection_is_reported_witness :
  Select.onOptionSelected App.Word App.props = true
  /\ Select.selectedOption App.Word (App.step (Select.OptionClick App.Word 1) App.opened)
     = Some (App.toOption App.dog)
  /\ Select.reported App.Word (App.step (Select.OptionClick App.Word 1) App.opened)
     = Select.reported App.Word App.opened
       ++ [Select.toValue App.Word App.props
             (App.step (Select.OptionClick App.Word 1) App.opened) (App.toOption App.dog)].
Proof.
  do 2 (split; [reflexivity|]).
  destruct (selection_is_reported App.Word App.toLowerCase App.props App.opened
              (Select.OptionClick App.Word 1) (App.toOption App.dog)) as [H _];
    [reflexivity | reflexivity |].
  apply H. left. vm_compute. discriminate.
Defined.


Lemma debounce_single_slot_witness :
  (N.of_nat 150 < 2147483648)%N
  /\ (list_sum [100] < 150)%nat
  /\ 2%nat
     ∉ Debounce.firedIds string
         (Debounce.run string
            (Debounce.Invoke string "second" 150
               :: map (Debounce.Elapse string) [100%nat]
               ++ Debounce.Invoke string "third" 150 :: [Debounce.Elapse string 1000])
            (Debounce.run string
               [Debounce.Invoke string "first" 150; Debounce.Elapse string 100]
               (Debounce.initial string))).
Proof.
  split; [lia|]. split; [vm_compute; lia|].
  destruct (debounce_single_slot string
              [Debounce.Invoke string "first" 150; Debounce.Elapse string 100])
    as (_ & _ & H & _).
  apply (H "second"%string 150%nat [100%nat] "third"%string 150%nat
           [Debounce.Elapse string 1000]).
  - lia.
  - vm_compute. lia.
Defined.

Lemma mount_without_initial_value_witness :
  Select.initialValue App.Word App.props = None
  /\ Select.selectedOption App.Word (App.mount "zzz" (Some [App.cat; App.dog]) None)
     = Some (App.toOption App.cat)
  /\ Select.inputValue App.Word (App.mount "zzz" (Some [App.cat; App.dog]) None)
     = "cat"%string.
Proof.
  split; [reflexivity|].
  destruct (mount_without_initial_value App.Word App.truthy App.props "zzz"
              (Some [App.cat; App.dog]) None) as (_ & _ & _ & _ & H); [reflexivity|].
  apply (H App.cat [App.dog]). reflexivity.
Defined.

(** ** More on the widget: opening, closing, committing *)

Section WidgetBehaviour.

Variable T : Type.
Variable truthy : T -> bool.
Variable toLowerCase : string -> string.
Variable p : Select.SelectProps T.

Local Abbreviation World := (Select.World T).
Local Abbreviation Event := (Select.Event T).
Local Abbreviation filteredOptions := (Select.filteredOptions T toLowerCase p).
Local Abbreviation handleKeyDown := (Select.handleKeyDown T toLowerCase p).
Local Abbreviation handle := (Select.handle T toLowerCase p).
Local Abbreviation step := (Select.step T toLowerCase p).
Local Abbreviation run := (Select.run T toLowerCase p).
Local Abbreviation mount := (Select.mount T truthy p).
Local Abbreviation inputValue := (Select.inputValue T).
Local Abbreviation values := (Select.values T).
Local Abbreviation showOptions := (Select.showOptions T).
Local Abbreviation shouldUpdateInput := (Select.shouldUpdateInput T).
Local Abbreviation currentFocusedOption := (Select.currentFocusedOption T).
Local Abbreviation selectedOption := (Select.selectedOption T).
Local Abbreviation selectedStamp := (Select.selectedStamp T).
Local Abbreviation reported := (Select.reported T).
Local Abbreviation resynced := (Spec.resynced T).

Lemma isSpecialKey_iff (key : string) :
  Select.isSpecialKey key = true <->
  key = "ArrowUp"%string \/ key = "ArrowDown"%string
  \/ key = "Enter"%string \/ key = "Escape"%string.
Proof.
  unfold Select.isSpecialKey, Select.specialKeys. simpl.
  rewrite !orb_true_iff, !String.eqb_eq. intuition discriminate.
Qed.

(** A step shows the dropdown only if its handler does. *)
Lemma step_showOptions (e : Event) (w : World) :
  showOptions (step e w) = true -> showOptions (handle e w) = true.
Proof.
  unfold Select.step, Select.afterResync.
  destruct (Select.resyncDepsChanged T w (handle e w)).
  - unfold Select.resyncEffect.
    destruct (shouldUpdateInput (handle e w));
      destruct (Select.selectionDepsChanged T e w (handle e w)); simpl; try done.
    + destruct (onOptionSelectedEffect_frame T p
                  (Select.setCurrentFocusedOption T (JS.Num (-1))
                     (Select.setShowOptions T false
                        (Select.setShouldUpdateInput T false
                           (Select.setInputValue T
                              (JS.nullish (Select.label <$> selectedOption (handle e w))
                                 ""%string) (handle e w))))))
        as (_ & _ & _ & -> & _). done.
    + by destruct (onOptionSelectedEffect_frame T p (handle e w)) as (_ & _ & _ & -> & _).
  - destruct (Select.selectionDepsChanged T e w (handle e w)); [|done].
    by destruct (onOptionSelectedEffect_frame T p (handle e w)) as (_ & _ & _ & -> & _).
Qed.

(** X1. Focusing the text box (or clicking the toggle button) clears the
    text, opens the dropdown and so shows every mapped option; the
    selection and the focused index stay. *)
Theorem focus_opens_full_list (w : World) :
  let w' := step (Select.Focus T) w in
  showOptions w' = true
  /\ inputValue w' = ""%string
  /\ filteredOptions w' = map (Select.toOption T p) (default [] (values w))
  /\ selectedOption w' = selectedOption w
  /\ currentFocusedOption w' = currentFocusedOption w.
Proof.
  intros w'. subst w'. rewrite step_quiet by (done || discriminate). done.
Qed.

(** X2. A closed dropdown is opened by a focus and by the keys ArrowUp,
    ArrowDown and Enter, and by nothing else: not by typing, not by
    Escape.  Such a key only opens: the text, the focused index, the
    selected option and the resync flag stay, and the key event is left
    alone. *)
Theorem opening_events (w : World) :
  showOptions w = false ->
  (forall e,
      showOptions (step e w) = true ->
      e = Select.Focus T
      \/ exists key,
          e = Select.KeyDown T key
          /\ (key = "ArrowUp"%string \/ key = "ArrowDown"%string \/ key = "Enter"%string))
  /\ (forall key,
        key = "ArrowUp"%string \/ key = "ArrowDown"%string \/ key = "Enter"%string ->
        Spec.visible T (step (Select.KeyDown T key) w)
        = (inputValue w, values w, Select.isLoading T w, true, shouldUpdateInput w,
           currentFocusedOption w, selectedOption w)
        /\ snd (handleKeyDown key w) = Select.untouched).
Proof.
  intros Hc. split.
  - intros e H. apply step_showOptions in H.
    destruct e as [|text|key|index|index| |captured|vs loading]; simpl in H.
    + by left.
    + congruence.
    + right. exists key. split; [done|].
      unfold Select.handleKeyDown in H. rewrite Hc in H.
      destruct (Select.isSpecialKey key) eqn:Hk; simpl in H; [|congruence].
      apply isSpecialKey_iff in Hk.
      destruct (String.eqb_spec key "Escape") as [->|Hne]; simpl in H; [congruence|].
      intuition congruence.
    + unfold Select.renderedOption in H. rewrite Hc in H. congruence.
    + unfold Select.renderedOption in H. rewrite Hc in H. congruence.
    + discriminate.
    + destruct captured; simpl in H; congruence.
    + congruence.
  - intros key Hk.
    assert (handleKeyDown key w = (Select.setShowOptions T true w, Select.untouched)) as E.
    { unfold Select.handleKeyDown. rewrite Hc.
      destruct Hk as [-> | [-> | ->]]; reflexivity. }
    split; [|by rewrite E].
    rewrite step_quiet; try discriminate; simpl; by rewrite E.
Qed.

(** X3. On a widget with no resync pending, a click outside and the
    deferred blur callback leave the same state and screen, and so does
    Escape on an open dropdown: that of the resync step, which shows the
    label of the selected option (or the empty text), closes the dropdown
    and drops the focused index, and keeps the selection.  A blur callback
    that captured a raised flag sets no state. *)
Theorem abandoning_resyncs (w : World) :
  shouldUpdateInput w = false ->
  Spec.visible T (step (Select.ClickOutside T) w) = Spec.visible T (resynced w)
  /\ Spec.visible T (step (Select.BlurTimeout T false) w) = Spec.visible T (resynced w)
  /\ (showOptions w = true ->
      Spec.visible T (step (Select.KeyDown T "Escape") w) = Spec.visible T (resynced w))
  /\ step (Select.BlurTimeout T true) w = w
  /\ Spec.visible T (resynced w)
     = (JS.nullish (Select.label <$> selectedOption w) ""%string, values w,
        Select.isLoading T w, false, false, JS.Num (-1), selectedOption w).
Proof.
  intros Hf.
  assert (forall e,
             handle e w = Select.setShouldUpdateInput T true w
             \/ handle e w
                = Select.setShouldUpdateInput T true (Select.setShowOptions T false w) ->
             step e w = resynced w) as Hstep.
  { intros e He. unfold Select.step, Select.afterResync.
    rewrite resyncDepsChanged_raised; [|done|by destruct He as [-> | ->]].
    unfold Select.selectionDepsChanged.
    assert (selectedStamp (handle e w) = selectedStamp w) as -> by by destruct He as [-> | ->].
    rewrite Nat.eqb_refl.
    assert (match e with Select.Rerender _ _ _ => true | _ => false end = false) as ->.
    { destruct e; try done. destruct He as [He | He]; simpl in He;
        apply (f_equal shouldUpdateInput) in He; simpl in He; congruence. }
    simpl. by destruct He as [-> | ->]. }
  split_and!.
  - rewrite Hstep; [done | by right].
  - rewrite Hstep; [done | by left].
  - intros Ho. rewrite Hstep; [done|]. left. simpl. unfold Select.handleKeyDown. by rewrite Ho.
  - by rewrite step_quiet.
  - reflexivity.
Qed.

(** X4. The dropdown never closes without a resync: whenever a step
    closes an open dropdown, the text then shows the label of the selected
    option (or is empty when there is none), no row is focused and no
    resync is left pending. *)
Theorem closing_resyncs (w : World) (e : Event) :
  shouldUpdateInput w = false ->
  showOptions w = true ->
  showOptions (step e w) = false ->
  inputValue (step e w)
  = JS.nullish (Select.label <$> selectedOption (step e w)) ""%string
  /\ currentFocusedOption (step e w) = JS.Num (-1)
  /\ shouldUpdateInput (step e w) = false.
Proof.
  intros Hf Ho Hc.
  destruct (handle_cases T toLowerCase p e w Hf) as [Hup | (Hdown & Hs & Hn & Hclosed)].
  - destruct (step_resync T toLowerCase p e w Hf Hup) as (-> & _ & _ & -> & -> & -> & _).
    done.
  - exfalso.
    assert (shouldUpdateInput (handle e w) = shouldUpdateInput w) as Hsame by congruence.
    destruct (onOptionSelectedEffect_frame T p (handle e w)) as (_ & _ & _ & Eo & _).
    destruct (step_without_resync T toLowerCase p e w Hs Hsame) as [E | E];
      rewrite E in Hc; rewrite ?Eo in Hc; destruct (Hclosed Hc); congruence.
Qed.

(** X5. The selected option is replaced only by a commit of an option
    that is on screen: after any step it is the one it was, or it is the
    option of a row of the open dropdown, stored by a click on that row or
    by Enter with that row focused.  So no event clears a selection. *)
Theorem selection_changes_only_by_commit (w : World) (e : Event) :
  (selectedOption (step e w) = selectedOption w
   \/ exists index o,
       selectedOption (step e w) = Some o
       /\ showOptions w = true
       /\ filteredOptions w !! index = Some o
       /\ (e = Select.OptionClick T index
           \/ (e = Select.KeyDown T "Enter"
               /\ currentFocusedOption w = JS.Num (Z.of_nat index))))
  /\ (forall es, is_Some (selectedOption w) -> is_Some (selectedOption (run es w))).
Proof.
  assert (forall (e : Event) (w : World),
             selectedOption (step e w) = selectedOption w
             \/ exists index o,
                 selectedOption (step e w) = Some o
                 /\ showOptions w = true
                 /\ filteredOptions w !! index = Some o
                 /\ (e = Select.OptionClick T index
                     \/ (e = Select.KeyDown T "Enter"
                         /\ currentFocusedOption w = JS.Num (Z.of_nat index)))) as Hstep.
  { clear w e. intros e w.
    destruct (step_frame T toLowerCase p e w) as (_ & -> & _).
    destruct e as [|text|key|index|index| |captured|vs loading]; simpl; try by left.
    - unfold Select.handleKeyDown.
      destruct (Select.isSpecialKey key); simpl; [|by left].
      destruct (showOptions w) eqn:Ho; simpl.
      + destruct (String.eqb key "Escape"); simpl; [by left|].
        destruct (String.eqb key "ArrowDown"); simpl; [by left|].
        destruct (String.eqb key "ArrowUp"); simpl; [by left|].
        destruct (String.eqb_spec key "Enter") as [->|_]; simpl; [|by left].
        destruct (JS.strict_eq _ _); simpl; [by left|].
        destruct (currentFocusedOption w) as [z|] eqn:Hz; simpl; [|by left].
        destruct (Z.ltb_spec z 0) as [|Hz0]; simpl; [by left|].
        destruct (filteredOptions w !! Z.to_nat z) as [o|] eqn:Hl; simpl; [|by left].
        right. exists (Z.to_nat z), o. split_and!; try done.
        right. split; [done|]. f_equal. lia.
      + destruct (String.eqb key "Escape"); by left.
    - unfold Select.renderedOption. destruct (showOptions w) eqn:Ho; [|by left].
      destruct (filteredOptions w !! index) as [o|] eqn:Hl; simpl; [|by left].
      right. exists index, o. split_and!; try done. by left.
    - unfold Select.renderedOption. destruct (showOptions w); [|by left].
      destruct (filteredOptions w !! index); by left.
    - destruct captured; by left. }
  split; [apply Hstep|].
  intros es. revert w. induction es as [|e' es IH]; intros w Hw; simpl; [done|].
  apply IH. destruct (Hstep e' w) as [-> | (index & o & -> & _)]; [done | by eexists].
Qed.

(** X6. The key handler prevents the default action of a key only for
    Enter on an open dropdown with a focused index other than -1, and
    stops the propagation only of Escape on an open dropdown; the keys
    that type text are never touched. *)
Theorem key_event_effects (key : string) (w : World) :
  (Select.defaultPrevented (snd (handleKeyDown key w)) = true <->
   showOptions w = true /\ key = "Enter"%string
   /\ currentFocusedOption w <> JS.Num (-1))
  /\ (Select.propagationStopped (snd (handleKeyDown key w)) = true <->
      showOptions w = true /\ key = "Escape"%string).
Proof.
  unfold Select.handleKeyDown.
  destruct (Select.isSpecialKey key) eqn:Hk; simpl.
  - destruct (showOptions w); simpl.
    + destruct (String.eqb_spec key "Escape") as [->|He]; simpl.
      { split; split; try done. by intros (_ & ? & _). }
      destruct (String.eqb_spec key "ArrowDown") as [->|Hd]; simpl.
      { split; split; try done; by intros (_ & ? & _) || by intros (_ & ?). }
      destruct (String.eqb_spec key "ArrowUp") as [->|Hu]; simpl.
      { split; split; try done; by intros (_ & ? & _) || by intros (_ & ?). }
      destruct (String.eqb_spec key "Enter") as [->|Hn]; simpl.
      * destruct (currentFocusedOption w) as [z|]; simpl.
        -- destruct (Z.eqb_spec z (-1)) as [->|Hz]; simpl.
           ++ split; split; try done. by intros (_ & _ & ?). by intros (_ & ?).
           ++ split; split; try done. intros _. split_and!; try done. congruence.
              by intros (_ & ?).
        -- split; split; try done. by intros (_ & ?).
      * split; split; try done; by intros (_ & ? & _) || by intros (_ & ?).
    + destruct (String.eqb key "Escape"); simpl;
        split; split; try done; by intros (? & _).
  - split; split; try done.
    + intros (_ & -> & _). discriminate.
    + intros (_ & ->). discriminate.
Qed.

(** X7. Once the focused index is [NaN], the arrow keys keep it so on
    any list, and Enter then closes the dropdown, keeps the selection and
    prevents the default action of the key. *)
Theorem NaN_is_kept (w : World) :
  showOptions w = true ->
  currentFocusedOption w = JS.NaN ->
  currentFocusedOption (step (Select.KeyDown T "ArrowDown") w) = JS.NaN
  /\ currentFocusedOption (step (Select.KeyDown T "ArrowUp") w) = JS.NaN
  /\ (shouldUpdateInput w = false ->
      showOptions (step (Select.KeyDown T "Enter") w) = false
      /\ selectedOption (step (Select.KeyDown T "Enter") w) = selectedOption w
      /\ Select.defaultPrevented (snd (handleKeyDown "Enter" w)) = true).
Proof.
  intros Ho Hn. split_and!.
  - rewrite step_arrow, handle_ArrowDown by auto. simpl. by rewrite Hn.
  - rewrite step_arrow, handle_ArrowUp by auto. simpl. by rewrite Hn.
  - intros Hf.
    assert (handleKeyDown "Enter" w
            = (Select.setShouldUpdateInput T true w, Select.mkKeyEffects true false)) as E.
    { unfold Select.handleKeyDown. by rewrite Ho, Hn. }
    destruct (step_resync T toLowerCase p (Select.KeyDown T "Enter") w Hf)
      as (_ & _ & -> & _ & _ & -> & _); simpl; by rewrite E.
Qed.

(** X8. On an open dropdown with a non-empty filtered list and a
    focused row, arrow-up undoes arrow-down and arrow-down undoes
    arrow-up. *)
Theorem arrows_round_trip (w : World) (i : Z) :
  showOptions w = true ->
  currentFocusedOption w = JS.Num i ->
  0 <= i < Z.of_nat (length (filteredOptions w)) ->
  currentFocusedOption
    (step (Select.KeyDown T "ArrowUp") (step (Select.KeyDown T "ArrowDown") w))
  = JS.Num i
  /\ currentFocusedOption
       (step (Select.KeyDown T "ArrowDown") (step (Select.KeyDown T "ArrowUp") w))
     = JS.Num i.
Proof.
  intros Ho Hi Hr.
  set (n := Z.of_nat (length (filteredOptions w))) in *.
  assert (filteredOptions w <> []) as Hne.
  { intros E. subst n. rewrite E in Hr. simpl in Hr. lia. }
  destruct (arrow_keys_wrap T toLowerCase p w i Ho Hne Hi) as [Hd Hu]; [lia|].
  fold n in Hd, Hu.
  assert (forall key, key = "ArrowDown"%string \/ key = "ArrowUp"%string ->
            showOptions (step (Select.KeyDown T key) w) = true
            /\ filteredOptions (step (Select.KeyDown T key) w) = filteredOptions w) as Hkeep.
  { intros key Hk. rewrite step_arrow by done.
    destruct Hk as [-> | ->]; [rewrite handle_ArrowDown | rewrite handle_ArrowUp];
      try done; (split; [done | by apply filteredOptions_ext]). }
  destruct (Hkeep "ArrowDown"%string) as [Hod Hfd]; [by left|].
  destruct (Hkeep "ArrowUp"%string) as [Hou Hfu]; [by right|].
  pose proof (Z.mod_pos_bound (i + 1) n) as Bd.
  pose proof (Z.mod_pos_bound (i - 1 + n) n) as Bu.
  split.
  - assert (0 < n) as Hn by lia.
    destruct (arrow_keys_wrap T toLowerCase p
                (step (Select.KeyDown T "ArrowDown") w) ((i + 1) mod n) Hod)
      as [_ ->]; [by rewrite Hfd | done | lia |].
    rewrite Hfd. fold n. f_equal.
    destruct (Z.eq_dec (i + 1) n) as [E|E].
    + rewrite E, Z.mod_same by lia. rewrite Z.mod_small; lia.
    + rewrite (Z.mod_small (i + 1)) by lia.
      replace (i + 1 - 1 + n) with (i + 1 * n) by lia.
      rewrite Z.mod_add by lia. apply Z.mod_small. lia.
  - assert (0 < n) as Hn by lia.
    destruct (arrow_keys_wrap T toLowerCase p
                (step (Select.KeyDown T "ArrowUp") w) ((i - 1 + n) mod n) Hou)
      as [-> _]; [by rewrite Hfu | done | lia |].
    rewrite Hfu. fold n. f_equal.
    destruct (Z.eq_dec i 0) as [E|E].
    + subst i. replace (0 - 1 + n) with (n - 1) by lia.
      rewrite (Z.mod_small (n - 1)) by lia.
      replace (n - 1 + 1) with n by lia. apply Z.mod_same. lia.
    + replace (i - 1 + n) with (i - 1 + 1 * n) by lia.
      rewrite Z.mod_add by lia. rewrite (Z.mod_small (i - 1)) by lia.
      replace (i - 1 + 1) with i by lia. apply Z.mod_small. lia.
Qed.

(** X9. With no row focused (index -1) on an open dropdown of [n > 0]
    rows, arrow-down focuses the first row, and arrow-up focuses the row
    before the last one (row [n - 2]), or the only row when [n = 1]. *)
Theorem arrows_from_no_focus (w : World) :
  showOptions w = true ->
  filteredOptions w <> [] ->
  currentFocusedOption w = JS.Num (-1) ->
  let n := Z.of_nat (length (filteredOptions w)) in
  currentFocusedOption (step (Select.KeyDown T "ArrowDown") w) = JS.Num 0
  /\ currentFocusedOption (step (Select.KeyDown T "ArrowUp") w)
     = JS.Num (if Z.eqb n 1 then 0 else n - 2).
Proof.
  intros Ho Hne Hi n.
  assert (0 < n) as Hn.
  { subst n. destruct (filteredOptions w); [done | simpl; lia]. }
  destruct (arrow_keys_wrap T toLowerCase p w (-1) Ho Hne Hi) as [-> ->]; [lia|].
  fold n. clearbody n. split; [reflexivity|]. f_equal.
  destruct (Z.eqb n 1) eqn:E.
  - apply Z.eqb_eq in E. subst n. reflexivity.
  - apply Z.eqb_neq in E.
    replace (-1 - 1 + n) with (n - 2) by lia. apply Z.mod_small. lia.
Qed.

(** *** Texts that keep an option *)

Lemma append_empty_r (a : string) : a +:+ "" = a.
Proof.
  induction a as [|x a IH]; [reflexivity|].
  change (String x (a +:+ "") = String x a). by rewrite IH.
Qed.

Lemma Substring_refl (x : string) : Spec.Substring x x.
Proof. exists ""%string, ""%string. simpl. by rewrite append_empty_r. Qed.

(** X10. Whatever lower-casing does, a text that lower-cases to the same
    string as the label of an option, or as its identifier, keeps every
    such option of the mapped list in the filtered list; so does the empty
    text.  In particular the text the resync step writes, the label of the
    selected option, keeps the selected option when the list has it. *)
Theorem matching_text_keeps_option (w : World) (o : Select.SelectOption) :
  o ∈ map (Select.toOption T p) (default [] (values w)) ->
  toLowerCase (inputValue w) = toLowerCase (Select.label o)
  \/ toLowerCase (inputValue w) = toLowerCase (Select.value o)
  \/ inputValue w = ""%string ->
  o ∈ filteredOptions w.
Proof.
  intros Hin Hm.
  destruct (decide (inputValue w = ""%string)) as [E|E].
  - by rewrite (filteredOptions_empty_text T toLowerCase p w E).
  - rewrite (filteredOptions_text T toLowerCase p w E).
    apply list_elem_of_In, filter_In. split; [by apply list_elem_of_In|].
    apply keeps_true_iff. unfold Spec.Matches, Spec.CaseInsensitiveSubstring.
    destruct Hm as [-> | [-> | Hm]]; [left | right | done]; apply Substring_refl.
Qed.

(** *** The listbox *)

Lemma renderList_open (w : World) :
  showOptions w = true ->
  Select.renderList T toLowerCase p w
  = Some ((if Select.truthyFlag (Select.isLoading T w)
           then [Select.LoadingPlaceholder] else [])
          ++ Spec.optionRows T toLowerCase p w
          ++ (if Nat.eqb (length (filteredOptions w)) 0
                 && negb (Select.truthyFlag (Select.isLoading T w))
              then [Select.NoOptionsPlaceholder] else [])).
Proof.
  intros Ho. unfold Select.renderList. rewrite Ho, imap_option_rows. reflexivity.
Qed.

Lemma optionRows_elem (w : World) (r : Select.Row) :
  r ∈ Spec.optionRows T toLowerCase p w -> exists o b, r = Select.OptionRow o b.
Proof.
  intros Hr. apply elem_of_lookup_imap in Hr as (i & o & -> & _). by eexists _, _.
Qed.

Lemma optionRows_nil (w : World) :
  Spec.optionRows T toLowerCase p w = [] <-> filteredOptions w = [].
Proof. unfold Spec.optionRows. destruct (filteredOptions w); simpl; split; done. Qed.

(** X11. An open dropdown always shows a row.  The "no options" row is
    shown exactly when the filtered list is empty and nothing is loading,
    and is then the only row; the loading row is shown exactly when the
    loading flag is set; a closed dropdown renders no list. *)
Theorem listbox_rows (w : World) :
  (Select.renderList T toLowerCase p w = None <-> showOptions w = false)
  /\ (forall rows,
        Select.renderList T toLowerCase p w = Some rows ->
        rows <> []
        /\ (Select.NoOptionsPlaceholder ∈ rows <->
            filteredOptions w = [] /\ Select.truthyFlag (Select.isLoading T w) = false)
        /\ (Select.NoOptionsPlaceholder ∈ rows -> rows = [Select.NoOptionsPlaceholder])
        /\ (Select.LoadingPlaceholder ∈ rows <->
            Select.truthyFlag (Select.isLoading T w) = true)).
Proof.
  destruct (showOptions w) eqn:Ho.
  2:{ unfold Select.renderList. rewrite Ho. by split. }
  rewrite (renderList_open w Ho). split; [by split|].
  intros rows H. apply (inj Some) in H. subst rows.
  pose proof (optionRows_elem w) as Hopts.
  pose proof (optionRows_nil w) as Hnil.
  set (opts := Spec.optionRows T toLowerCase p w) in *. clearbody opts.
  destruct (Select.truthyFlag (Select.isLoading T w)); cbn [negb].
  - rewrite andb_false_r, app_nil_r. cbn [app]. split_and!; try done.
    + split; [|by intros [_ ?]]. intros H.
      apply elem_of_cons in H as [H | H]; [done|].
      apply Hopts in H as (o & b & H). done.
    + intros H. apply elem_of_cons in H as [H | H]; [done|].
      apply Hopts in H as (o & b & H). done.
    + split; [done|]. intros _. left.
  - rewrite andb_true_r. cbn [app]. destruct (filteredOptions w) as [|o l] eqn:E.
    + assert (opts = []) as -> by by apply Hnil. simpl.
      split_and!; try done.
      * split; [done|]. intros _. left.
      * split; [|done]. intros H. apply list_elem_of_singleton in H. done.
    + simpl. rewrite app_nil_r.
      assert (opts <> []) as Hne by (rewrite Hnil; done).
      split_and!; try done.
      * split; [|by intros [? _]]. intros H. apply Hopts in H as (? & ? & H). done.
      * intros H. apply Hopts in H as (? & ? & H). done.
      * split; [|done]. intros H. apply Hopts in H as (? & ? & H). done.
Qed.

Lemma ariaSelected_imap (l : list Select.SelectOption) (k m : nat) :
  Spec.ariaSelectedRows
    (imap (fun index o => Select.OptionRow o (Nat.eqb (k + index) m)) l)
  = if Nat.leb k m
    then match l !! (m - k)%nat with
         | Some o => [Select.OptionRow o true]
         | None => []
         end
    else [].
Proof.
  revert k. induction l as [|a l IH]; intros k.
  - simpl. by destruct (Nat.leb k m); [destruct (m - k)%nat|].
  - rewrite imap_cons. unfold Spec.ariaSelectedRows in *. cbn [List.filter].
    rewrite Nat.add_0_r.
    assert (imap ((fun index o => Select.OptionRow o (Nat.eqb (k + index) m)) ∘ S) l
            = imap (fun index o => Select.OptionRow o (Nat.eqb (S k + index) m)) l) as ->.
    { apply imap_ext. intros i x _. unfold compose.
      by replace (k + S i)%nat with (S k + i)%nat by lia. }
    rewrite IH.
    destruct (Nat.eqb_spec k m) as [->|Hne].
    + assert (Nat.leb (S m) m = false) as -> by (apply Nat.leb_gt; lia).
      by rewrite Nat.leb_refl, Nat.sub_diag.
    + destruct (Nat.leb_spec k m) as [Hle|Hgt].
      * assert (Nat.leb (S k) m = true) as -> by (apply Nat.leb_le; lia).
        by replace (m - k)%nat with (S (m - S k)) by lia.
      * by assert (Nat.leb (S k) m = false) as -> by (apply Nat.leb_gt; lia).
Qed.

(** X12. At most one row of the listbox is marked as selected: the row
    of the option that Enter would commit, [filteredOptions[focused]];
    no row is marked when the focused index is -1, [NaN] or past the end
    of the list. *)
Theorem aria_selected_row (w : World) (rows : list Select.Row) :
  Select.renderList T toLowerCase p w = Some rows ->
  Spec.ariaSelectedRows rows
  = match JS.index (filteredOptions w) (currentFocusedOption w) with
    | Some o => [Select.OptionRow o true]
    | None => []
    end.
Proof.
  destruct (showOptions w) eqn:Ho.
  2:{ unfold Select.renderList. by rewrite Ho. }
  rewrite (renderList_open w Ho). intros H. apply (inj Some) in H. subst rows.
  unfold Spec.ariaSelectedRows. rewrite !List.filter_app.
  assert (forall (b : bool) (r : Select.Row),
             (r = Select.LoadingPlaceholder \/ r = Select.NoOptionsPlaceholder) ->
             List.filter
               (fun r => match r with Select.OptionRow _ true => true | _ => false end)
               (if b then [r] else []) = []) as Hplace.
  { intros [] r [-> | ->]; reflexivity. }
  rewrite !Hplace by auto. rewrite app_nil_r. cbn [app].
  fold (Spec.ariaSelectedRows (Spec.optionRows T toLowerCase p w)).
  unfold Spec.optionRows.
  destruct (currentFocusedOption w) as [z|]; simpl.
  - destruct (Z.ltb_spec z 0) as [Hneg|Hpos].
    + erewrite imap_ext; [apply (ariaSelected_imap (filteredOptions w) 1 0)|].
      intros i x _. simpl. f_equal. destruct (Z.eqb_spec (Z.of_nat i) z); [lia|done].
    + erewrite imap_ext.
      * rewrite (ariaSelected_imap (filteredOptions w) 0 (Z.to_nat z)). simpl.
        by rewrite Nat.sub_0_r.
      * intros i x _. simpl. f_equal.
        destruct (Z.eqb_spec (Z.of_nat i) z), (Nat.eqb_spec i (Z.to_nat z)); done || lia.
  - erewrite imap_ext; [apply (ariaSelected_imap (filteredOptions w) 1 0)|].
    intros i x _. reflexivity.
Qed.

(** *** Mounting with an initial value, and what the callback hears *)

(** X13. A truthy initial value is selected on mount whether or not the
    values list holds it: its option is the selected option and its label
    the text, and the selection effect, when the callback is supplied,
    calls it with the first value of the list that has its identifier, or
    with [undefined] when the list has none.  A falsy initial value is
    passed over: the widget mounts into the state it mounts into when none
    is given. *)
Theorem mount_with_initial_value (v : T) (text : string) (vs : option (list T))
    (loading : option bool) :
  Select.initialValue T p = Some v ->
  (truthy v = true ->
   let w := mount text vs loading in
   selectedOption w = Some (Select.toOption T p v)
   /\ inputValue w = Select.label (Select.toOption T p v)
   /\ showOptions w = false
   /\ Select.onOptionSelectedCall T p w
      = if Select.onOptionSelected T p
        then Some (JS.find (fun u => String.eqb (Select.value (Select.toOption T p u))
                                                (Select.value (Select.toOption T p v)))
                           (default [] vs))
        else None)
  /\ (truthy v = false ->
      Spec.visible T (mount text vs loading)
      = Spec.visible T
          (Select.mount T truthy
             (Select.mkProps T (Select.toOption T p) None (Select.onOptionSelected T p))
             text vs loading)).
Proof.
  intros Hini. split.
  - intros Ht w. subst w. unfold Select.mount, Select.firstRender,
      Select.initialSelectedOption. rewrite Hini, Ht.
    rewrite resyncEffect_pending by done.
    unfold Select.onOptionSelectedEffect, Select.onOptionSelectedCall. simpl.
    by destruct (Select.onOptionSelected T p).
  - intros Ht. unfold Select.mount, Select.firstRender, Select.initialSelectedOption.
    rewrite Hini, Ht. reflexivity.
Qed.

(** A step that stores a fresh selected object or renders anew calls the
    callback once, with the value found for the option then selected. *)
Lemma step_reports (e : Event) (w : World) (o : Select.SelectOption) :
  Select.onOptionSelected T p = true ->
  Select.selectionDepsChanged T e w (handle e w) = true ->
  selectedOption (handle e w) = Some o ->
  reported (step e w) = reported w ++ [Select.toValue T p (handle e w) o].
Proof.
  intros Hcb Hdeps Hsel. rewrite step_unfold, Hdeps.
  destruct (afterResync_frame T toLowerCase p e w) as (Hv & Hs & _ & Hr).
  destruct (handle_frame T toLowerCase p e w) as (Hr' & _).
  unfold Select.onOptionSelectedEffect, Select.onOptionSelectedCall.
  rewrite Hcb, Hs, Hsel. simpl. rewrite Hr, Hr'.
  unfold Select.toValue, Select.valuesOrEmpty. by rewrite Hv.
Qed.

Lemma find_first (f : T -> bool) (v : T) (rest : list T) :
  f v = true -> JS.find f (v :: rest) = Some v.
Proof. intros H. simpl. by rewrite H. Qed.

(** X14. Without an initial value and with a callback, the selection
    effect of a widget mounted on a non-empty values list calls the
    callback with the first value of the list; mounted on an empty or
    undefined list, it returns without a call. *)
Theorem mount_reports_first_value (text : string) (vs : option (list T))
    (loading : option bool) :
  Select.initialValue T p = None ->
  Select.onOptionSelected T p = true ->
  (forall v rest,
      default [] vs = v :: rest ->
      Select.onOptionSelectedCall T p (mount text vs loading) = Some (Some v))
  /\ (default [] vs = [] ->
      Select.onOptionSelectedCall T p (mount text vs loading) = None).
Proof.
  intros Hini Hcb.
  assert (forall sel,
             selectedOption (Select.firstRender T truthy p text vs loading) = sel ->
             Select.onOptionSelectedCall T p (mount text vs loading)
             = match sel with
               | Some o => Some (JS.find
                                   (fun u => String.eqb (Select.value (Select.toOption T p u))
                                                        (Select.value o))
                                   (default [] vs))
               | None => None
               end) as Hm.
  { intros sel <-. unfold Select.mount. rewrite resyncEffect_pending by done.
    unfold Select.onOptionSelectedEffect, Select.onOptionSelectedCall. rewrite Hcb. simpl.
    by destruct (Select.initialSelectedOption T truthy p _). }
  split.
  - intros v rest E. rewrite (Hm (Some (Select.toOption T p v))).
    + rewrite E, find_first; [done | apply String.eqb_refl].
    + unfold Select.firstRender, Select.initialSelectedOption, Select.options,
        Select.valuesOrEmpty. simpl. by rewrite Hini, E.
  - intros E. rewrite (Hm None); [done|].
    unfold Select.firstRender, Select.initialSelectedOption, Select.options,
      Select.valuesOrEmpty. simpl. by rewrite Hini, E.
Qed.

(** An option of the mapped list is found again among the values. *)
Lemma toValue_of_option (w : World) (o : Select.SelectOption) :
  o ∈ Select.options T p w ->
  exists v u,
    Select.toValue T p w o = Some v
    /\ v ∈ default [] (values w)
    /\ Select.value (Select.toOption T p v) = Select.value o
    /\ u ∈ default [] (values w)
    /\ Select.toOption T p u = o.
Proof.
  intros Hin. unfold Select.options in Hin.
  apply list_elem_of_fmap in Hin as (u & -> & Hu).
  destruct (Select.toValue T p w (Select.toOption T p u)) as [v|] eqn:Ev.
  - exists v, u. pose proof Ev as Ev'. unfold Select.toValue in Ev'.
    apply find_Some_iff in Ev' as (pre & post & Hsplit & Hv & Hpre).
    apply String.eqb_eq in Hv. split_and!; try done.
    change (Select.valuesOrEmpty T w) with (default [] (values w)) in Hsplit.
    rewrite Hsplit. apply elem_of_app. right. left.
  - exfalso. unfold Select.toValue in Ev. rewrite find_None_iff in Ev.
    specialize (Ev u Hu). by apply String.eqb_neq in Ev.
Qed.

Lemma step_OptionClick_reports (w : World) (index : nat) (o : Select.SelectOption) :
  Select.onOptionSelected T p = true ->
  showOptions w = true ->
  filteredOptions w !! index = Some o ->
  reported (step (Select.OptionClick T index) w)
  = reported w ++ [Select.toValue T p w o].
Proof.
  intros Hcb Ho Hl.
  assert (handle (Select.OptionClick T index) w = Select.handleOptionClick T o w) as Eh.
  { simpl. unfold Select.renderedOption. by rewrite Ho, Hl. }
  rewrite (step_reports _ w o Hcb); [by rewrite Eh | | by rewrite Eh].
  unfold Select.selectionDepsChanged. rewrite Eh. simpl.
  destruct (Nat.eqb_spec (selectedStamp w) (S (selectedStamp w))); [lia|done].
Qed.

Lemma filteredOptions_elem (w : World) (index : nat) (o : Select.SelectOption) :
  filteredOptions w !! index = Some o -> o ∈ Select.options T p w.
Proof.
  intros Hl. eapply elem_of_sublist; [|apply (filteredOptions_sublist T toLowerCase p w)].
  apply list_elem_of_lookup. by exists index.
Qed.

(** X15. After a click on a row of the open dropdown the selection
    effect never calls the callback with [undefined]: it calls it with a
    value of the values list whose option has the identifier of the
    clicked option, and, when no two values of the list share an
    identifier, with the very value the clicked option was made from. *)
Theorem click_reports_value (w : World) (index : nat) (o : Select.SelectOption) :
  Select.onOptionSelected T p = true ->
  showOptions w = true ->
  filteredOptions w !! index = Some o ->
  exists v,
    Select.onOptionSelectedCall T p (step (Select.OptionClick T index) w) = Some (Some v)
    /\ v ∈ default [] (values w)
    /\ Select.value (Select.toOption T p v) = Select.value o
    /\ ((forall u u', u ∈ default [] (values w) -> u' ∈ default [] (values w) ->
                      Select.value (Select.toOption T p u)
                      = Select.value (Select.toOption T p u') -> u = u') ->
        Select.toOption T p v = o).
Proof.
  intros Hcb Ho Hl.
  destruct (toValue_of_option w o (filteredOptions_elem w index o Hl))
    as (v & u & Ev & Hv & Hid & Hu & Eu).
  exists v. split_and!; try done.
  - assert (handle (Select.OptionClick T index) w = Select.handleOptionClick T o w) as Eh.
    { simpl. unfold Select.renderedOption. by rewrite Ho, Hl. }
    destruct (step_frame T toLowerCase p (Select.OptionClick T index) w) as (Hvs & Hs & _).
    unfold Select.onOptionSelectedCall, Select.toValue, Select.valuesOrEmpty.
    rewrite Hcb, Hs, Hvs, Eh. simpl. f_equal. exact Ev.
  - intros Huniq. rewrite (Huniq v u Hv Hu); [done|]. by rewrite Hid, Eu.
Qed.

End WidgetBehaviour.


(** ** More on the debounce hook *)

Section DebounceBehaviour.

Variable Call : Type.

Local Abbreviation Runtime := (Debounce.Runtime Call).
Local Abbreviation now := (Debounce.now Call).
Local Abbreviation pending := (Debounce.pending Call).
Local Abbreviation nextId := (Debounce.nextId Call).
Local Abbreviation fired := (Debounce.fired Call).
Local Abbreviation run := (Debounce.run Call).
Local Abbreviation Invoke := (Debounce.Invoke Call).
Local Abbreviation Elapse := (Debounce.Elapse Call).
Local Abbreviation SingleSlot := (Spec.SingleSlot Call).

Local Open Scope nat_scope.

(** X16. No call is made early: for a delay below [2^31] milliseconds,
    as long as less than the delay has passed since an invocation, no
    call has been made since, neither the new one nor the one it
    superseded, and the new timer is the one pending. *)
Theorem no_call_before_the_delay (history : list (Debounce.Event Call)) (c : Call)
    (delay : nat) (quiet : list nat) :
  (N.of_nat delay < 2147483648)%N ->
  list_sum quiet < delay ->
  let rt := run history (Debounce.initial Call) in
  let rt' := run (Invoke c delay :: map Elapse quiet) rt in
  fired rt' = fired rt
  /\ pending rt' = [Debounce.mkTimer Call (nextId rt) (now rt + delay) c].
Proof.
  intros Hfit Hlt rt rt'. subst rt'.
  assert (SingleSlot rt) as Hrt by apply run_single_slot, initial_single_slot.
  change (run (Invoke c delay :: map Elapse quiet) rt)
    with (run (map Elapse quiet) (Debounce.debounce Call c delay rt)).
  rewrite debounce_result, (longDelay_small delay Hfit) by done.
  rewrite (run_quiet_before Call quiet _
             (Debounce.mkTimer Call (nextId rt) (now rt + delay) c));
    simpl; done || lia.
Qed.

Lemma step_calls_bound (e : Debounce.Event Call) (rt : Runtime) :
  SingleSlot rt ->
  length (fired (Debounce.step Call e rt)) + length (pending (Debounce.step Call e rt))
  <= length (fired rt) + length (pending rt) + Spec.invocations Call [e].
Proof.
  intros Hrt. pose proof Hrt as (_ & _ & Hp & _).
  destruct e as [c delay | dt]; cbn [Debounce.step].
  - rewrite debounce_result by done. unfold Spec.invocations. simpl.
    destruct Hp as [-> | (t & -> & _)]; simpl; lia.
  - unfold Spec.invocations. cbn [List.filter length].
    destruct Hp as [Hp | (t & Hp & _)].
    + rewrite elapse_none by done. rewrite Hp. simpl. lia.
    + rewrite (elapse_single Call dt rt t Hp), Hp.
      destruct (Nat.leb (Debounce.deadline Call t) (now rt + dt)); simpl;
        rewrite ?length_app; simpl; lia.
Qed.

Lemma run_calls_bound (es : list (Debounce.Event Call)) (rt : Runtime) :
  SingleSlot rt ->
  length (fired (run es rt)) + length (pending (run es rt))
  <= length (fired rt) + length (pending rt) + Spec.invocations Call es.
Proof.
  revert rt. induction es as [|e es IH]; intros rt Hrt; [simpl; lia|].
  change (run (e :: es) rt) with (run es (Debounce.step Call e rt)).
  pose proof (IH _ (step_single_slot Call e rt Hrt)) as H1.
  pose proof (step_calls_bound e rt Hrt) as H2.
  assert (Spec.invocations Call (e :: es)
          = Spec.invocations Call [e] + Spec.invocations Call es) as ->.
  { unfold Spec.invocations. simpl. by destruct e. }
  lia.
Qed.

(** X17. The hook makes at most one call for each invocation: after any
    history the calls made, together with the call still pending, are no
    more than the invocations. *)
Theorem calls_bounded_by_invocations (history : list (Debounce.Event Call)) :
  let rt := run history (Debounce.initial Call) in
  length (fired rt) + length (pending rt) <= Spec.invocations Call history.
Proof.
  intros rt. subst rt.
  pose proof (run_calls_bound history (Debounce.initial Call) (initial_single_slot Call)) as H.
  simpl in H. lia.
Qed.

(** A delay of [2^31] milliseconds is no delay: the call is made as soon
    as the host gets to run timers. *)
Example huge_delay_fires_at_once (c : Call) :
  fired (run [Invoke c (N.to_nat 2147483648); Elapse 0] (Debounce.initial Call))
  = [(1, c)].
Proof.
  change (run [Invoke c (N.to_nat 2147483648); Elapse 0] (Debounce.initial Call))
    with (Debounce.elapse Call 0
            (Debounce.debounce Call c (N.to_nat 2147483648) (Debounce.initial Call))).
  rewrite debounce_result by apply initial_single_slot.
  rewrite longDelay_wraps by apply N2Nat.id.
  by rewrite (elapse_single Call 0 _ (Debounce.mkTimer Call 1 0 c)).
Qed.

End DebounceBehaviour.

(** ** The blur handler on its timer *)

Section PageFacts.

Variable T : Type.
Variable toLowerCase : string -> string.
Variable p : Select.SelectProps T.

Local Abbreviation Page := (Page.Page T).
Local Abbreviation world := (Page.world T).
Local Abbreviation timers := (Page.timers T).
Local Abbreviation prun := (Page.run T toLowerCase p).
Local Abbreviation Widget := (Page.Widget T).
Local Abbreviation Blur := (Page.Blur T).
Local Abbreviation Wait := (Page.Wait T).
Local Abbreviation wstep := (Select.step T toLowerCase p).
Local Abbreviation wrun := (Select.run T toLowerCase p).

Local Open Scope nat_scope.

Lemma page_run_app (es1 es2 : list (Page.Event T)) (pg : Page) :
  prun (es1 ++ es2) pg = prun es2 (prun es1 pg).
Proof. unfold Page.run. apply fold_left_app. Qed.

(** Events of the widget leave the timers alone. *)
Lemma run_widgets (es : list (Select.Event T)) (pg : Page) :
  prun (map Widget es) pg = Page.mkPage T (wrun es (world pg)) (timers pg).
Proof.
  revert pg. induction es as [|e es IH]; intros pg; simpl; [by destruct pg|].
  by rewrite IH.
Qed.

Lemma handleBlur_result (pg : Page) :
  Spec.SingleSlot bool (timers pg) ->
  Page.handleBlur T pg
  = Page.mkPage T (world pg)
      (Debounce.mkRuntime bool (Debounce.now bool (timers pg))
         [Debounce.mkTimer bool (Debounce.nextId bool (timers pg))
            (Debounce.now bool (timers pg) + 150)
            (Select.shouldUpdateInput T (world pg))]
         (S (Debounce.nextId bool (timers pg))) (Some (Debounce.nextId bool (timers pg)))
         (Debounce.fired bool (timers pg))).
Proof.
  intros H. unfold Page.handleBlur. rewrite debounce_result by done.
  by rewrite (longDelay_small 150) by lia.
Qed.

Lemma wait_due (dt : nat) (pg : Page) (t : Debounce.Timer bool) :
  Debounce.pending bool (timers pg) = [t] ->
  Debounce.deadline bool t <= Debounce.now bool (timers pg) + dt ->
  Page.wait T toLowerCase p dt pg
  = Page.mkPage T (wstep (Select.BlurTimeout T (Debounce.call bool t)) (world pg))
      (Debounce.mkRuntime bool (Debounce.now bool (timers pg) + dt) []
         (Debounce.nextId bool (timers pg)) (Debounce.debounceRef bool (timers pg))
         (Debounce.fired bool (timers pg)
          ++ [(Debounce.timerId bool t, Debounce.call bool t)])).
Proof.
  intros Hp Hle. unfold Page.wait. rewrite (elapse_single bool dt _ t Hp).
  destruct (Nat.leb_spec (Debounce.deadline bool t) (Debounce.now bool (timers pg) + dt));
    [|lia].
  simpl. by rewrite drop_app_length.
Qed.

Lemma wait_not_due (dt : nat) (pg : Page) (t : Debounce.Timer bool) :
  Debounce.pending bool (timers pg) = [t] ->
  Debounce.now bool (timers pg) + dt < Debounce.deadline bool t ->
  Page.wait T toLowerCase p dt pg
  = Page.mkPage T (world pg)
      (Debounce.mkRuntime bool (Debounce.now bool (timers pg) + dt) [t]
         (Debounce.nextId bool (timers pg)) (Debounce.debounceRef bool (timers pg))
         (Debounce.fired bool (timers pg))).
Proof.
  intros Hp Hlt. unfold Page.wait. rewrite (elapse_single bool dt _ t Hp).
  destruct (Nat.leb_spec (Debounce.deadline bool t) (Debounce.now bool (timers pg) + dt));
    [lia|].
  simpl. by rewrite drop_all.
Qed.


(** X19. A second blur within the 150 ms takes the place of the first:
    the dropdown is left as it is for as long as each blur comes less than
    150 ms after the one before, however long that lasts in all. *)
Theorem blur_postponed_by_blur (pg : Page) (a b : nat) :
  Spec.SingleSlot bool (timers pg) ->
  a < 150 ->
  b < 150 ->
  let pg' := prun [Blur; Wait a; Blur; Wait b] pg in
  world pg' = world pg
  /\ length (Debounce.pending bool (timers pg')) = 1
  /\ Debounce.fired bool (timers pg') = Debounce.fired bool (timers pg).
Proof.
  intros Hslot Ha Hb pg'. subst pg'.
  cbn [Page.run fold_left Page.step].
  rewrite (handleBlur_result pg) by done.
  rewrite (wait_not_due a _
             (Debounce.mkTimer bool (Debounce.nextId bool (timers pg))
                (Debounce.now bool (timers pg) + 150)
                (Select.shouldUpdateInput T (world pg))));
    [|reflexivity|simpl; lia].
  cbn [Page.world Page.timers Debounce.now Debounce.nextId Debounce.debounceRef
         Debounce.fired].
  set (mid := Page.mkPage T _ _).
  assert (Spec.SingleSlot bool (timers mid)) as Hmid.
  { destruct Hslot as (Hn & Href & _ & Hfired). subst mid. unfold Spec.SingleSlot. simpl.
    split_and!; [lia | intros i [= <-]; lia | right; by eexists |].
    intros i Hi. apply Hfired in Hi. lia. }
  rewrite (handleBlur_result mid) by done.
  erewrite (wait_not_due b); [|reflexivity|simpl; lia].
  done.
Qed.

End PageFacts.

(** ** The result line *)

Section ResultFacts.

(** X20. In the demo application a click on a row of the open dropdown
    makes the result line and the text box agree: both show the label of
    the clicked option, and the dropdown is closed. *)
Theorem result_line_after_click (w : App.World) (index : nat) (o : Select.SelectOption) :
  Select.showOptions App.Word w = true ->
  Select.shouldUpdateInput App.Word w = false ->
  App.filteredOptions w !! index = Some o ->
  let w' := App.step (Select.OptionClick App.Word index) w in
  Result.resultText w' = "selected option: " +:+ Select.label o
  /\ Select.inputValue App.Word w' = Select.label o
  /\ Select.showOptions App.Word w' = false.
Proof.
  intros Ho Hf Hl w'. subst w'. unfold App.step, App.filteredOptions in *.
  destruct (toValue_of_option App.Word App.props w o
              (filteredOptions_elem App.Word App.toLowerCase App.props w index o Hl))
    as (v & u & Ev & _ & Hid & _ & Eu).
  assert (Select.handle App.Word App.toLowerCase App.props
            (Select.OptionClick App.Word index) w
          = Select.handleOptionClick App.Word o w) as Eh.
  { simpl. unfold Select.renderedOption. by rewrite Ho, Hl. }
  destruct (step_resync App.Word App.toLowerCase App.props
              (Select.OptionClick App.Word index) w Hf) as (Ei & _ & Es & _);
    [by rewrite Eh|].
  split_and!.
  - unfold Result.resultText, Result.selectedValue.
    rewrite (step_OptionClick_reports App.Word App.toLowerCase App.props w index o)
      by done.
    rewrite last_snoc, Ev. simpl. f_equal.
    subst o. exact Hid.
  - rewrite Ei, Eh. done.
  - done.
Qed.

End ResultFacts.

(** ** The further theorems at concrete inputs *)

Lemma opening_events_witness :
  Select.showOptions App.Word App.mounted = false
  /\ Select.showOptions App.Word (App.step (Select.KeyDown App.Word "Enter") App.mounted)
     = true
  /\ Select.selectedOption App.Word (App.step (Select.KeyDown App.Word "Enter") App.mounted)
     = Select.selectedOption App.Word App.mounted.
Proof.
  split; [reflexivity|].
  destruct (opening_events App.Word App.toLowerCase App.props App.mounted) as [_ H];
    [reflexivity|].
  destruct (H "Enter"%string) as [H' _]; [right; right; reflexivity|].
  split.
  - exact (f_equal (fun v => snd (fst (fst (fst v)))) H').
  - exact (f_equal snd H').
Defined.

Lemma abandoning_resyncs_witness :
  Select.shouldUpdateInput App.Word App.staleFocus = false
  /\ Spec.visible App.Word (App.step (Select.ClickOutside App.Word) App.staleFocus)
     = Spec.visible App.Word (Spec.resynced App.Word App.staleFocus).
Proof.
  split; [reflexivity|].
  destruct (abandoning_resyncs App.Word App.toLowerCase App.props App.staleFocus)
    as [H _]; [reflexivity|].
  exact H.
Defined.

Lemma closing_resyncs_witness :
  Select.shouldUpdateInput App.Word App.opened = false
  /\ Select.showOptions App.Word App.opened = true
  /\ Select.showOptions App.Word (App.step (Select.ClickOutside App.Word) App.opened) = false
  /\ Select.currentFocusedOption App.Word
       (App.step (Select.ClickOutside App.Word) App.opened) = JS.Num (-1).
Proof.
  do 3 (split; [reflexivity|]).
  destruct (closing_resyncs App.Word App.toLowerCase App.props App.opened
              (Select.ClickOutside App.Word)) as (_ & H & _);
    [reflexivity | reflexivity | reflexivity |].
  exact H.
Defined.

Lemma selection_changes_only_by_commit_witness :
  is_Some (Select.selectedOption App.Word App.opened)
  /\ is_Some (Select.selectedOption App.Word
                (App.run [Select.OptionClick App.Word 1; Select.Focus App.Word] App.opened)).
Proof.
  assert (is_Some (Select.selectedOption App.Word App.opened)) as H0 by by eexists.
  split; [exact H0|].
  destruct (selection_changes_only_by_commit App.Word App.toLowerCase App.props App.opened
              (Select.Focus App.Word)) as [_ H].
  apply (H [Select.OptionClick App.Word 1; Select.Focus App.Word] H0).
Defined.

Lemma NaN_is_kept_witness :
  Select.showOptions App.Word
    (App.run [Select.KeyDown App.Word "ArrowDown"; Select.Change App.Word ""] App.noMatch)
  = true
  /\ Select.currentFocusedOption App.Word
       (App.run [Select.KeyDown App.Word "ArrowDown"; Select.Change App.Word ""] App.noMatch)
     = JS.NaN
  /\ Select.currentFocusedOption App.Word
       (App.step (Select.KeyDown App.Word "ArrowDown")
          (App.run [Select.KeyDown App.Word "ArrowDown"; Select.Change App.Word ""]
             App.noMatch))
     = JS.NaN.
Proof.
  do 2 (split; [reflexivity|]).
  destruct (NaN_is_kept App.Word App.toLowerCase App.props
              (App.run [Select.KeyDown App.Word "ArrowDown"; Select.Change App.Word ""]
                 App.noMatch)) as [H _]; [reflexivity | reflexivity |].
  exact H.
Defined.

Lemma arrows_round_trip_witness :
  Select.showOptions App.Word App.firstFocused = true
  /\ Select.currentFocusedOption App.Word App.firstFocused = JS.Num 0
  /\ 0 <= 0 < Z.of_nat (length (App.filteredOptions App.firstFocused))
  /\ Select.currentFocusedOption App.Word
       (App.step (Select.KeyDown App.Word "ArrowUp")
          (App.step (Select.KeyDown App.Word "ArrowDown") App.firstFocused))
     = JS.Num 0.
Proof.
  do 2 (split; [reflexivity|]).
  assert (0 <= 0 < Z.of_nat (length (App.filteredOptions App.firstFocused))) as Hr
    by (change (0 <= 0 < 2); lia).
  split; [exact Hr|].
  destruct (arrows_round_trip App.Word App.toLowerCase App.props App.firstFocused 0)
    as [H _]; [reflexivity | reflexivity | exact Hr |].
  exact H.
Defined.

Lemma arrows_from_no_focus_witness :
  Select.showOptions App.Word App.opened = true
  /\ App.filteredOptions App.opened <> []
  /\ Select.currentFocusedOption App.Word App.opened = JS.Num (-1)
  /\ Select.currentFocusedOption App.Word
       (App.step (Select.KeyDown App.Word "ArrowUp") App.opened) = JS.Num 0.
Proof.
  split; [reflexivity|]. split; [discriminate|]. split; [reflexivity|].
  destruct (arrows_from_no_focus App.Word App.toLowerCase App.props App.opened)
    as [_ H]; [reflexivity | discriminate | reflexivity |].
  exact H.
Defined.

Lemma matching_text_keeps_option_witness :
  App.toOption App.cat ∈ map App.toOption [App.cat; App.dog]
  /\ App.toLowerCase "CAT" = App.toLowerCase (Select.label (App.toOption App.cat))
  /\ App.toOption App.cat
     ∈ App.filteredOptions (App.step (Select.Change App.Word "CAT") App.opened).
Proof.
  assert (App.toOption App.cat ∈ map App.toOption [App.cat; App.dog]) as H by left.
  split; [exact H|]. split; [reflexivity|].
  apply (matching_text_keeps_option App.Word App.toLowerCase App.props
           (App.step (Select.Change App.Word "CAT") App.opened) (App.toOption App.cat) H).
  left. reflexivity.
Defined.

Lemma listbox_rows_witness :
  App.renderList App.noMatch = Some [Select.NoOptionsPlaceholder]
  /\ (Select.NoOptionsPlaceholder ∈ [Select.NoOptionsPlaceholder] <->
      App.filteredOptions App.noMatch = []
      /\ Select.truthyFlag (Select.isLoading App.Word App.noMatch) = false).
Proof.
  split; [reflexivity|].
  destruct (listbox_rows App.Word App.toLowerCase App.props App.noMatch) as [_ H].
  destruct (H [Select.NoOptionsPlaceholder]) as (_ & H' & _); [reflexivity|].
  exact H'.
Defined.

Lemma aria_selected_row_witness :
  App.renderList App.firstFocused
  = Some [Select.OptionRow (App.toOption App.cat) true;
          Select.OptionRow (App.toOption App.dog) false]
  /\ Spec.ariaSelectedRows
       [Select.OptionRow (App.toOption App.cat) true;
        Select.OptionRow (App.toOption App.dog) false]
     = match JS.index (App.filteredOptions App.firstFocused)
               (Select.currentFocusedOption App.Word App.firstFocused) with
       | Some o => [Select.OptionRow o true]
       | None => []
       end.
Proof.
  split; [reflexivity|].
  apply (aria_selected_row App.Word App.toLowerCase App.props App.firstFocused).
  reflexivity.
Defined.

Lemma mount_with_initial_value_witness :
  Select.initialValue App.Word (Select.mkProps App.Word App.toOption (Some App.dog) true)
  = Some App.dog
  /\ App.truthy App.dog = true
  /\ Select.selectedOption App.Word
       (Select.mount App.Word App.truthy
          (Select.mkProps App.Word App.toOption (Some App.dog) true) "" (Some [App.cat]) None)
     = Some (App.toOption App.dog).
Proof.
  do 2 (split; [reflexivity|]).
  destruct (mount_with_initial_value App.Word App.truthy
              (Select.mkProps App.Word App.toOption (Some App.dog) true)
              App.dog "" (Some [App.cat]) None) as [H _]; [reflexivity|].
  destruct H as [H _]; [reflexivity|].
  exact H.
Defined.

Lemma mount_reports_first_value_witness :
  Select.initialValue App.Word App.props = None
  /\ Select.onOptionSelected App.Word App.props = true
  /\ Select.onOptionSelectedCall App.Word App.props
       (App.mount "" (Some [App.cat; App.dog]) None)
     = Some (Some App.cat).
Proof.
  do 2 (split; [reflexivity|]).
  destruct (mount_reports_first_value App.Word App.truthy App.props ""
              (Some [App.cat; App.dog]) None) as [H _]; [reflexivity | reflexivity |].
  apply (H App.cat [App.dog]). reflexivity.
Defined.

Lemma click_reports_value_witness :
  Select.onOptionSelected App.Word App.props = true
  /\ Select.showOptions App.Word App.opened = true
  /\ App.filteredOptions App.opened !! 1%nat = Some (App.toOption App.dog)
  /\ exists v,
      Select.onOptionSelectedCall App.Word App.props
        (App.step (Select.OptionClick App.Word 1) App.opened)
      = Some (Some v)
      /\ Select.value (App.toOption v) = "dog"%string.
Proof.
  do 3 (split; [reflexivity|]).
  destruct (click_reports_value App.Word App.toLowerCase App.props App.opened 1
              (App.toOption App.dog)) as (v & H1 & _ & H2 & _);
    [reflexivity | reflexivity | reflexivity |].
  exists v. split; [exact H1 | exact H2].
Defined.

Lemma no_call_before_the_delay_witness :
  (N.of_nat 150 < 2147483648)%N
  /\ (list_sum [100; 49] < 150)%nat
  /\ Debounce.fired string
       (Debounce.run string
          (Debounce.Invoke string "blur" 150 :: map (Debounce.Elapse string) [100; 49]%nat)
          (Debounce.run string [Debounce.Invoke string "earlier" 150]
             (Debounce.initial string)))
     = Debounce.fired string
         (Debounce.run string [Debounce.Invoke string "earlier" 150]
            (Debounce.initial string)).
Proof.
  assert (N.of_nat 150 < 2147483648)%N as H0 by lia.
  assert (list_sum [100; 49] < 150)%nat as H by (vm_compute; lia).
  split; [exact H0|]. split; [exact H|].
  destruct (no_call_before_the_delay string [Debounce.Invoke string "earlier" 150]
              "blur"%string 150%nat [100; 49]%nat H0 H) as [H' _].
  exact H'.
Defined.


Lemma blur_postponed_by_blur_witness :
  Spec.SingleSlot bool (Page.timers App.Word Result.page)
  /\ (100 < 150)%nat
  /\ Page.world App.Word
       (Result.runPage
          [Page.Blur App.Word; Page.Wait App.Word 100; Page.Blur App.Word;
           Page.Wait App.Word 100]
          Result.page)
     = Page.world App.Word Result.page.
Proof.
  assert (Spec.SingleSlot bool (Page.timers App.Word Result.page)) as H1
    by apply initial_single_slot.
  assert (100 < 150)%nat as H2 by lia.
  do 2 (split; [assumption|]).
  destruct (blur_postponed_by_blur App.Word App.toLowerCase App.props Result.page
              100 100 H1 H2 H2) as [H _].
  exact H.
Defined.

Lemma result_line_after_click_witness :
  Select.showOptions App.Word App.opened = true
  /\ Select.shouldUpdateInput App.Word App.opened = false
  /\ App.filteredOptions App.opened !! 1%nat = Some (App.toOption App.dog)
  /\ Result.resultText (App.step (Select.OptionClick App.Word 1) App.opened)
     = "selected option: dog"%string.
Proof.
  do 3 (split; [reflexivity|]).
  destruct (result_line_after_click App.opened 1 (App.toOption App.dog)) as [H _];
    [reflexivity | reflexivity | reflexivity |].
  exact H.
Defined.
